(** * The cross-package inference store of NilAway: [InferredMap]

    A shallow embedding of the [InferredMap] of NilAway's inference
    package and a verification of the properties its specification
    states: the mutation API
    ([StoreDetermined], [StoreImplication]), the export selector
    ([chooseSitesToExport]), [Export], the gob wrappers and the
    annotation facade ([checkAnnotationKey]).

    Go maps are reference objects: an [InferredMap] holds two references
    into a heap of map objects, and every method threads that heap.
    The values stored in a map are modelled by value. *)

From stdpp Require Import gmap strings list fin_maps fin_sets relations.

(** ** Sites, triggers and values *)

(** [annotation.Key]: the six kinds of annotatable entity.  The go/types
    object behind each key is identified by its qualified name. *)
Inductive annotationKey :=
  | FieldAnnotationKey (FieldDecl : string)
  | ParamAnnotationKey (FuncDecl : string) (ParamNum : Z)
  | RetAnnotationKey (FuncDecl : string) (RetNum : Z)
  | RecvAnnotationKey (FuncDecl : string)
  | TypeNameAnnotationKey (TypeDecl : string)
  | GlobalVarAnnotationKey (VarDecl : string).

#[global] Instance annotationKey_eq_dec : EqDecision annotationKey.
Proof. solve_decision. Defined.

Definition annotationKey_enc (k : annotationKey) : nat * string * Z :=
  match k with
  | FieldAnnotationKey s => (0, s, 0%Z)
  | ParamAnnotationKey s n => (1, s, n)
  | RetAnnotationKey s n => (2, s, n)
  | RecvAnnotationKey s => (3, s, 0%Z)
  | TypeNameAnnotationKey s => (4, s, 0%Z)
  | GlobalVarAnnotationKey s => (5, s, 0%Z)
  end.

Definition annotationKey_dec (c : nat * string * Z) : annotationKey :=
  match c with
  | (0, s, _) => FieldAnnotationKey s
  | (1, s, n) => ParamAnnotationKey s n
  | (2, s, n) => RetAnnotationKey s n
  | (3, s, _) => RecvAnnotationKey s
  | (4, s, _) => TypeNameAnnotationKey s
  | (_, s, _) => GlobalVarAnnotationKey s
  end.

#[global] Instance annotationKey_countable : Countable annotationKey.
Proof.
  apply (inj_countable' annotationKey_enc annotationKey_dec).
  by intros [].
Defined.

(** Modelled from the spec: the declaration of [primitiveSite] is not part
    of the sources at hand.  Section 3 of the specification: a site is an
    annotation location together with a [deep] bit and an [exported] bit,
    and two sites are equal iff all three components are equal. *)
Record primitiveSite := PrimitiveSite {
  Key : annotationKey;
  IsDeep : bool;
  Exported : bool
}.

#[global] Instance primitiveSite_eq_dec : EqDecision primitiveSite.
Proof. solve_decision. Defined.

#[global] Instance primitiveSite_countable : Countable primitiveSite.
Proof.
  apply (inj_countable' (λ s, (Key s, IsDeep s, Exported s))
                        (λ c, PrimitiveSite c.1.1 c.1.2 c.2)).
  by intros [].
Defined.

(** Modelled from the spec: [primitiveFullTrigger] is declared outside the
    sources at hand; the specification treats it as opaque diagnostic
    metadata that is compared by value. *)
Record primitiveFullTrigger := PrimitiveFullTrigger { TriggerRepr : string }.

#[global] Instance primitiveFullTrigger_eq_dec : EqDecision primitiveFullTrigger.
Proof. solve_decision. Defined.

#[global] Instance primitiveFullTrigger_countable : Countable primitiveFullTrigger.
Proof.
  apply (inj_countable' TriggerRepr PrimitiveFullTrigger).
  by intros [].
Defined.

(** Modelled from the spec: [ExplainedBool] is a boolean verdict plus an
    opaque explanation; [Val] is the accessor the facade calls. *)
Record ExplainedBool := MkExplainedBool { Val : bool; Explanation : string }.

#[global] Instance ExplainedBool_eq_dec : EqDecision ExplainedBool.
Proof. solve_decision. Defined.

#[global] Instance ExplainedBool_countable : Countable ExplainedBool.
Proof.
  apply (inj_countable' (λ b, (Val b, Explanation b))
                        (λ c, MkExplainedBool c.1 c.2)).
  by intros [].
Defined.

(** Modelled from the spec: [sitesWithAssertions], [newSitesWithAssertions]
    and [addSiteWithAssertion] are declared outside the sources at hand.
    Section 4.1 of the specification: an edge set maps a neighbour site to
    the collection of trigger assertions justifying the edge; [add] is
    idempotent on the pair (neighbour, trigger) and never loses a trigger. *)
Abbreviation sitesWithAssertions := (gmap primitiveSite (gset primitiveFullTrigger)).

Definition newSitesWithAssertions : sitesWithAssertions := ∅.

Definition addSiteWithAssertion (site : primitiveSite)
    (assertion : primitiveFullTrigger) (s : sitesWithAssertions)
    : sitesWithAssertions :=
  <[site := {[assertion]} ∪ default ∅ (s !! site)]> s.

(** [InferredVal]: the interface implemented by the determined and the
    undetermined variant. *)
Inductive InferredVal :=
  | DeterminedVal (Bool : ExplainedBool)
  | UndeterminedVal (Implicates Implicants : sitesWithAssertions).

#[global] Instance InferredVal_eq_dec : EqDecision InferredVal.
Proof. solve_decision. Defined.

#[global] Instance InferredVal_countable : Countable InferredVal.
Proof.
  apply (inj_countable'
           (λ v, match v with
                 | DeterminedVal b => inl b
                 | UndeterminedVal a b => inr (a, b)
                 end)
           (λ c, match c with
                 | inl b => DeterminedVal b
                 | inr (a, b) => UndeterminedVal a b
                 end)).
  by intros [].
Defined.

Definition isDetermined (v : option InferredVal) : bool :=
  match v with Some (DeterminedVal _) => true | _ => false end.

Definition isUndetermined (v : option InferredVal) : bool :=
  match v with Some (UndeterminedVal _ _) => true | _ => false end.

(** ** The heap of map objects *)

Abbreviation siteMap := (gmap primitiveSite InferredVal).
Abbreviation loc := positive.
Abbreviation Heap := (gmap loc siteMap).

(** [make(map[primitiveSite]InferredVal)]: a fresh, empty map object. *)
Definition make (h : Heap) : loc * Heap :=
  let l := fresh (dom h) in (l, <[l := ∅]> h).

(** The content of the map object behind a reference. *)
Definition deref (h : Heap) (l : loc) : siteMap := default ∅ (h !! l).

(** [m[site]] with the comma-ok form, and [m[site] = v].  A reference
    held by an [InferredMap] is always allocated ([newInferredMap] and
    [GobDecode] are the only ways to obtain one); a reference that is not
    reads as the empty map. *)
Definition mapLoad (h : Heap) (l : loc) (site : primitiveSite) : option InferredVal :=
  deref h l !! site.

Definition mapStore (l : loc) (site : primitiveSite) (v : InferredVal) (h : Heap) : Heap :=
  <[l := <[site := v]> (deref h l)]> h.

(** The struct [InferredMap]: two map references. *)
Record InferredMap := MkInferredMap {
  upstreamMapping : loc;
  mapping : loc
}.

#[global] Instance InferredMap_eq_dec : EqDecision InferredMap.
Proof. solve_decision. Defined.

(** Both references of the struct point to allocated map objects. *)
Definition allocated (i : InferredMap) (h : Heap) : Prop :=
  upstreamMapping i ∈ dom h ∧ mapping i ∈ dom h.

(** [newInferredMap]. *)
Definition newInferredMap (h : Heap) : InferredMap * Heap :=
  let '(up, h1) := make h in
  let '(mp, h2) := make h1 in
  (MkInferredMap up mp, h2).

(** ** Mutation API *)

(** A Go call either returns or panics; in both cases it leaves a heap. *)
Inductive outcome (A : Type) :=
  | Returned (a : A)
  | Panicked (a : A).
Arguments Returned {A} a.
Arguments Panicked {A} a.

#[global] Instance outcome_eq_dec {A} `{EqDecision A} : EqDecision (outcome A).
Proof. solve_decision. Defined.

Definition heapOf {A} (o : outcome A) : A :=
  match o with Returned a | Panicked a => a end.

(** [Load]. *)
Definition Load (site : primitiveSite) (i : InferredMap) (h : Heap)
    : option InferredVal :=
  mapLoad h (mapping i) site.

(** [StoreDetermined]. *)
Definition StoreDetermined (site : primitiveSite) (value : ExplainedBool)
    (i : InferredMap) (h : Heap) : Heap :=
  mapStore (mapping i) site (DeterminedVal value) h.

(** The first loop of [StoreImplication]: create the missing endpoints. *)
Definition ensureUndetermined (i : InferredMap) (h : Heap) (site : primitiveSite) : Heap :=
  match mapLoad h (mapping i) site with
  | None =>
      mapStore (mapping i) site
        (UndeterminedVal newSitesWithAssertions newSitesWithAssertions) h
  | Some _ => h
  end.

(** [StoreImplication].  The two type assertions to the undetermined
    variant are of the single-result form: they panic on a determined
    value. *)
Definition StoreImplication (from to : primitiveSite)
    (assertion : primitiveFullTrigger) (i : InferredMap) (h : Heap)
    : outcome Heap :=
  let h1 := foldl (ensureUndetermined i) h [from; to] in
  match mapLoad h1 (mapping i) from with
  | Some (UndeterminedVal implicates implicants) =>
      let h2 := mapStore (mapping i) from
                  (UndeterminedVal (addSiteWithAssertion to assertion implicates)
                                   implicants) h1 in
      match mapLoad h2 (mapping i) to with
      | Some (UndeterminedVal implicates' implicants') =>
          Returned (mapStore (mapping i) to
                      (UndeterminedVal implicates'
                         (addSiteWithAssertion from assertion implicants')) h2)
      | _ => Panicked h2
      end
  | _ => Panicked h1
  end.

(** [Len]. *)
Definition Len (i : InferredMap) (h : Heap) : nat := size (deref h (mapping i)).

(** ** The export selector *)

(** The three local maps of [chooseSitesToExport].  Only [true] is ever
    stored in them and a missing key reads as [false], so each is a set. *)
Record marks := Marks {
  toExport : gset primitiveSite;
  reachableFromExported : gset primitiveSite;
  reachesExported : gset primitiveSite
}.

(** Go iterates over a map in an unspecified order.  A [rangeOrder] tells
    in which order a [range] loop lists what it iterates over; it is a
    parameter of everything that iterates, and every statement below holds
    for all of them. *)
Record rangeOrder := RangeOrder {
  rangeList : ∀ A : Type, list A → list A;
  rangeList_perm : ∀ (A : Type) (l : list A), rangeList A l ≡ₚ l
}.

(** The keys of a map, in the order of [map_to_list]. *)
Definition keysOf {V} (m : gmap primitiveSite V) : list primitiveSite :=
  (map_to_list m).*1.

(** The neighbours a [range] over an edge set yields. *)
Definition sitesOf (order : rangeOrder) (s : sitesWithAssertions)
    : list primitiveSite :=
  rangeList order _ (keysOf s).

(** The closure [markReachableFromExported].  Go's recursion is bounded
    here by [fuel]; running out of it is reported as [None]. *)
Fixpoint markReachableFromExported (order : rangeOrder) (fuel : nat) (m : siteMap)
    (site : primitiveSite) (st : marks) : option marks :=
  match fuel with
  | O => None
  | S fuel' =>
      match m !! site with
      | Some (UndeterminedVal implicates _) =>
          if negb (Exported site)
             && negb (bool_decide (site ∈ toExport st))
             && negb (bool_decide (site ∈ reachableFromExported st))
          then
            let st1 :=
              if bool_decide (site ∈ reachesExported st)
              then Marks ({[site]} ∪ toExport st) (reachableFromExported st)
                         (reachesExported st)
              else Marks (toExport st) ({[site]} ∪ reachableFromExported st)
                         (reachesExported st) in
            foldl (λ acc implicate,
                     acc ≫= markReachableFromExported order fuel' m implicate)
                  (Some st1) (sitesOf order implicates)
          else Some st
      | _ => Some st
      end
  end.

(** The closure [markReachesExported]. *)
Fixpoint markReachesExported (order : rangeOrder) (fuel : nat) (m : siteMap)
    (site : primitiveSite) (st : marks) : option marks :=
  match fuel with
  | O => None
  | S fuel' =>
      match m !! site with
      | Some (UndeterminedVal _ implicants) =>
          if negb (Exported site)
             && negb (bool_decide (site ∈ toExport st))
             && negb (bool_decide (site ∈ reachesExported st))
          then
            let st1 :=
              if bool_decide (site ∈ reachableFromExported st)
              then Marks ({[site]} ∪ toExport st) (reachableFromExported st)
                         (reachesExported st)
              else Marks (toExport st) (reachableFromExported st)
                         ({[site]} ∪ reachesExported st) in
            foldl (λ acc implicant,
                     acc ≫= markReachesExported order fuel' m implicant)
                  (Some st1) (sitesOf order implicants)
          else Some st
      | _ => Some st
      end
  end.

(** One iteration of the loop over [i.mapping] in [chooseSitesToExport]. *)
Definition visitExported (order : rangeOrder) (fuel : nat) (m : siteMap)
    (acc : option marks)
    (site : primitiveSite) : option marks :=
  st ← acc;
  if negb (Exported site) then Some st
  else
    let st1 := Marks ({[site]} ∪ toExport st) (reachableFromExported st)
                     (reachesExported st) in
    match m !! site with
    | Some (UndeterminedVal implicates implicants) =>
        st2 ← foldl (λ acc implicant,
                       acc ≫= markReachesExported order fuel m implicant)
                    (Some st1) (sitesOf order implicants);
        foldl (λ acc implicate,
                 acc ≫= markReachableFromExported order fuel m implicate)
              (Some st2) (sitesOf order implicates)
    | _ => Some st1
    end.

Definition chooseSitesWithFuel (order : rangeOrder) (fuel : nat) (m : siteMap)
    : option marks :=
  foldl (visitExported order fuel m) (Some (Marks ∅ ∅ ∅))
        (rangeList order _ (keysOf m)).

(** [chooseSitesToExport]: the selector reads [i.mapping] only.  The fuel
    [S (size m)] is always enough (lemma [chooseSitesWithFuel_enough]). *)
Definition chooseSitesToExport (order : rangeOrder) (i : InferredMap) (h : Heap)
    : gset primitiveSite :=
  let m := deref h (mapping i) in
  from_option toExport ∅ (chooseSitesWithFuel order (S (size m)) m).

(** ** Export *)

(** Modelled from the spec: [inferredValDiff] is defined outside the
    sources at hand.  Section 4.4 of the specification: when the local
    value adds new edges, or strengthens a previously undetermined entry
    into a determined one, the delta is returned and flagged non-empty;
    when nothing changed the flag is [false].  [edgesDiff] is the delta of
    one edge set: the neighbours that are new and, for a known neighbour,
    the triggers that are new. *)
Definition edgesDiff (new old : sitesWithAssertions) : sitesWithAssertions :=
  map_imap (λ site triggers,
      match old !! site with
      | None => Some triggers
      | Some known =>
          if decide (triggers ∖ known = ∅) then None
          else Some (triggers ∖ known)
      end) new.

Definition inferredValDiff (val upstreamVal : InferredVal)
    : option InferredVal * bool :=
  match val, upstreamVal with
  | DeterminedVal _, UndeterminedVal _ _ => (Some val, true)
  | UndeterminedVal implicates implicants,
    UndeterminedVal implicates0 implicants0 =>
      let d1 := edgesDiff implicates implicates0 in
      let d2 := edgesDiff implicants implicants0 in
      (Some (UndeterminedVal d1 d2),
       negb (bool_decide (d1 = ∅)) || negb (bool_decide (d2 = ∅)))
  | _, _ => (None, false)
  end.

(** The facts handed to [pass.ExportPackageFact], most recent first. *)
Abbreviation Pass := (list InferredMap).

(** The body of the loop of [Export] for one entry of [i.mapping];
    [exported] is the reference of the map under construction. *)
Definition exportSite (i : InferredMap) (sitesToExport : gset primitiveSite)
    (exported : loc) (h : Heap) (entry : primitiveSite * InferredVal) : Heap :=
  let '(site, val) := entry in
  if negb (bool_decide (site ∈ sitesToExport)) then h
  else
    match mapLoad h (upstreamMapping i) site with
    | Some upstreamVal =>
        match inferredValDiff val upstreamVal with
        | (Some diff, true) => mapStore exported site diff h
        | _ => h
        end
    | None => mapStore exported site val h
    end.

(** [Export]. *)
Definition Export (order : rangeOrder) (i : InferredMap) (pass : Pass) (h : Heap)
    : Pass * Heap :=
  if decide (size (deref h (mapping i)) = 0) then (pass, h)
  else
    let '(exported, h1) := make h in
    let sitesToExport := chooseSitesToExport order i h1 in
    let h2 := foldl (exportSite i sitesToExport exported) h1
                    (rangeList order _ (map_to_list (deref h1 (mapping i)))) in
    if decide (0 < size (deref h2 exported)) then
      let '(m, h3) := newInferredMap h2 in
      (MkInferredMap (upstreamMapping m) exported :: pass, h3)
    else (pass, h2).

(** ** Serializer *)

Section Gob.

(** [encoding/gob] is an external library: its encoder and decoder for
    [map[primitiveSite]InferredVal] are parameters.  Each returns its
    result together with Go's [error] ([None] is [nil]); the decoder
    returns the entries it read. *)
Variable gobEncode : siteMap → list Byte.byte * option string.
Variable gobDecode : list Byte.byte → siteMap * option string.

(** [GobEncode]. *)
Definition GobEncode (i : InferredMap) (h : Heap)
    : list Byte.byte * option string :=
  match gobEncode (deref h (mapping i)) with
  | (_, Some err) => ([], Some err)
  | (buf, None) => (buf, None)
  end.

(** [GobDecode]: the receiver's two fields are replaced by fresh maps, and
    the decoder fills the one behind [i.mapping]. *)
Definition GobDecode (input : list Byte.byte) (i : InferredMap) (h : Heap)
    : InferredMap * Heap * option string :=
  let '(mp, h1) := make h in
  let '(up, h2) := make h1 in
  let i' := MkInferredMap up mp in
  let '(entries, err) := gobDecode input in
  (i', <[mapping i' := entries ∪ deref h2 (mapping i')]> h2, err).

End Gob.

(** ** Annotation facade *)

(** [annotation.Val]. *)
Record annotationVal := MkAnnotationVal {
  IsNilable : bool;
  IsDeepNilable : bool;
  IsNilableSet : bool;
  IsDeepNilableSet : bool
}.

#[global] Instance annotationVal_eq_dec : EqDecision annotationVal.
Proof. solve_decision. Defined.

(** Modelled from the spec: [annotation.EmptyVal] is declared outside the
    sources at hand; the specification calls it the neutral empty value. *)
Definition EmptyVal : annotationVal := MkAnnotationVal false false false false.

(** Modelled from the spec: [ParamKeyFromArgNum] and [RetKeyFromRetNum]
    belong to the annotation package; they key a function's parameter and
    return by index. *)
Definition ParamKeyFromArgNum (fdecl : string) (num : Z) : annotationKey :=
  ParamAnnotationKey fdecl num.

Definition RetKeyFromRetNum (fdecl : string) (num : Z) : annotationKey :=
  RetAnnotationKey fdecl num.

Section Facade.

(** Whether the entity behind a key is visible outside its package is
    reported by go/types; the facade takes it as given. *)
Variable keyExported : annotationKey → bool.

(** Modelled from the spec: [newPrimitiveSite] is defined outside the
    sources at hand; it pairs the key with the [deep] bit and the
    visibility of the entity. *)
Definition newPrimitiveSite (key : annotationKey) (isDeep : bool) : primitiveSite :=
  PrimitiveSite key isDeep (keyExported key).

(** [checkAnnotationKey]. *)
Definition checkAnnotationKey (key : annotationKey) (i : InferredMap) (h : Heap)
    : annotationVal * bool :=
  let shallowKey := newPrimitiveSite key false in
  let deepKey := newPrimitiveSite key true in
  match mapLoad h (mapping i) shallowKey, mapLoad h (mapping i) deepKey with
  | Some shallowVal, Some deepVal =>
      match shallowVal, deepVal with
      | DeterminedVal shallowBoolVal, DeterminedVal deepBoolVal =>
          (MkAnnotationVal (Val shallowBoolVal) (Val deepBoolVal) true true, true)
      | _, _ => (EmptyVal, false)
      end
  | _, _ => (EmptyVal, false)
  end.

Definition CheckFieldAnn (fld : string) :=
  checkAnnotationKey (FieldAnnotationKey fld).

Definition CheckFuncParamAnn (fdecl : string) (num : Z) :=
  checkAnnotationKey (ParamKeyFromArgNum fdecl num).

Definition CheckFuncRetAnn (fdecl : string) (num : Z) :=
  checkAnnotationKey (RetKeyFromRetNum fdecl num).

Definition CheckFuncRecvAnn (fdecl : string) :=
  checkAnnotationKey (RecvAnnotationKey fdecl).

Definition CheckDeepTypeAnn (name : string) :=
  checkAnnotationKey (TypeNameAnnotationKey name).

Definition CheckGlobalVarAnn (v : string) :=
  checkAnnotationKey (GlobalVarAnnotationKey v).

End Facade.

(** ** Sequences of mutations *)

Inductive mutation :=
  | CallStoreDetermined (site : primitiveSite) (value : ExplainedBool)
  | CallStoreImplication (from to : primitiveSite) (assertion : primitiveFullTrigger).

Definition applyMutation (i : InferredMap) (h : Heap) (c : mutation) : outcome Heap :=
  match c with
  | CallStoreDetermined site value => Returned (StoreDetermined site value i h)
  | CallStoreImplication from to assertion => StoreImplication from to assertion i h
  end.

(** Run the calls in order; a panic ends the run. *)
Fixpoint runMutations (i : InferredMap) (cs : list mutation) (h : Heap)
    : outcome Heap :=
  match cs with
  | [] => Returned h
  | c :: cs' =>
      match applyMutation i h c with
      | Returned h' => runMutations i cs' h'
      | Panicked h' => Panicked h'
      end
  end.

(** ** The implication graph of a map *)

Definition undetermined (m : siteMap) (s : primitiveSite) : Prop :=
  isUndetermined (m !! s) = true.

(** [v] is recorded under [u.Implicates]. *)
Definition implicatesEdge (m : siteMap) (u v : primitiveSite) : Prop :=
  ∃ implicates implicants,
    m !! u = Some (UndeterminedVal implicates implicants) ∧ v ∈ dom implicates.

(** [u] is recorded under [v.Implicants]. *)
Definition implicantsEdge (m : siteMap) (v u : primitiveSite) : Prop :=
  ∃ implicates implicants,
    m !! v = Some (UndeterminedVal implicates implicants) ∧ u ∈ dom implicants.

(** A directed path [a -> x1 -> ... -> xn -> b] along implicates edges
    through undetermined sites; the list holds the intermediate sites. *)
Inductive implicatesPath (m : siteMap)
    : primitiveSite → list primitiveSite → primitiveSite → Prop :=
  | path_edge a b :
      implicatesEdge m a b → undetermined m b → implicatesPath m a [] b
  | path_step a x l b :
      implicatesEdge m a x → implicatesPath m x l b →
      implicatesPath m a (x :: l) b.

(** Convexity of a site set: every intermediate site of every path between
    two exported sites belongs to the set. *)
Definition convex (m : siteMap) (E : gset primitiveSite) : Prop :=
  ∀ a b l, Exported a = true → Exported b = true →
    implicatesPath m a l b → ∀ x, x ∈ l → x ∈ E.

(** Edge symmetry between undetermined sites (invariant 1 of the data
    model), as membership and with the triggers. *)
Definition edgeSymmetric (m : siteMap) : Prop :=
  ∀ u v au bu av bv,
    m !! u = Some (UndeterminedVal au bu) →
    m !! v = Some (UndeterminedVal av bv) →
    (v ∈ dom au ↔ u ∈ dom bv).

Definition triggerSymmetric (m : siteMap) : Prop :=
  ∀ u v au bu av bv,
    m !! u = Some (UndeterminedVal au bu) →
    m !! v = Some (UndeterminedVal av bv) →
    au !! v = bv !! u.

(** ** Range *)

(** The loop of [Range]: the visitor [f] is a Go closure, so the state it
    captures is threaded through the calls; it answers whether to go on. *)
Fixpoint rangeLoop {A} (f : A → primitiveSite → InferredVal → A * bool)
    (a : A) (entries : list (primitiveSite * InferredVal)) : A :=
  match entries with
  | [] => a
  | (site, value) :: rest =>
      let '(a', goOn) := f a site value in
      if goOn then rangeLoop f a' rest else a'
  end.

(** [Range]. *)
Definition Range {A} (order : rangeOrder)
    (f : A → primitiveSite → InferredVal → A * bool)
    (i : InferredMap) (h : Heap) (a : A) : A :=
  rangeLoop f a (rangeList order _ (map_to_list (deref h (mapping i)))).

(** ** The configuration (package config) *)

(** [strings.HasPrefix] and [strings.Contains] of Go's library. *)
Definition HasPrefix (s prefix : string) : bool := String.prefix prefix s.

Fixpoint Contains (s substr : string) : bool :=
  if String.prefix substr s then true
  else match s with
       | EmptyString => false
       | String _ s' => Contains s' substr
       end.

(** The separator of the flags' lists: the comma (code 44). *)
Definition comma : Ascii.ascii := Ascii.ascii_of_nat 44.

(** [strings.Split(s, ",")]: the pieces between the commas; the code uses
    no other separator. *)
Fixpoint SplitComma (s : string) : list string :=
  match s with
  | EmptyString => [EmptyString]
  | String c s' =>
      if Ascii.eqb c comma then EmptyString :: SplitComma s'
      else match SplitComma s' with
           | piece :: pieces => String c piece :: pieces
           | [] => [String c EmptyString]
           end
  end.

(** The struct [Config]. *)
Record Config := MkConfig {
  PrettyPrint : bool;
  includePkgs : list string;
  excludePkgs : list string;
  excludeFileDocStrings : list string
}.

(** The inner loop of [IsPkgInScope]: some exclude prefix matches. *)
Fixpoint excludedByPrefix (path : string) (excludes : list string) : bool :=
  match excludes with
  | [] => false
  | exclude :: rest =>
      if HasPrefix path exclude then true else excludedByPrefix path rest
  end.

(** The outer loop of [IsPkgInScope]: the first include prefix that
    matches decides. *)
Fixpoint includeLoop (path : string) (includes excludes : list string) : bool :=
  match includes with
  | [] => false
  | include :: rest =>
      if negb (HasPrefix path include) then includeLoop path rest excludes
      else negb (excludedByPrefix path excludes)
  end.

(** [IsPkgInScope]; a go/types package is [nil] or has a path. *)
Definition IsPkgInScope (c : Config) (pkg : option string) : bool :=
  match pkg with
  | None => false
  | Some path => includeLoop path (includePkgs c) (excludePkgs c)
  end.

(** A comment group of go/ast with its position and its text, and what
    [IsFileInScope] reads of a file: the comments and the position of the
    package name. *)
Record CommentGroup := MkCommentGroup { CommentPos : Z; CommentText : string }.
Record File := MkFile { Comments : list CommentGroup; NamePos : Z }.

(** The inner loop of [IsFileInScope]. *)
Fixpoint excludedByDocString (text : string) (excludes : list string) : bool :=
  match excludes with
  | [] => false
  | exclude :: rest =>
      if Contains text exclude then true else excludedByDocString text rest
  end.

(** The outer loop of [IsFileInScope]. *)
Fixpoint commentLoop (namePos : Z) (comments : list CommentGroup)
    (excludes : list string) : bool :=
  match comments with
  | [] => true
  | comment :: rest =>
      if (namePos <? CommentPos comment)%Z then commentLoop namePos rest excludes
      else if excludedByDocString (CommentText comment) excludes then false
      else commentLoop namePos rest excludes
  end.

(** [IsFileInScope]. *)
Definition IsFileInScope (c : Config) (file : File) : bool :=
  if decide (length (excludeFileDocStrings c) = 0) then true
  else commentLoop (NamePos file) (Comments file) (excludeFileDocStrings c).

(** What [Get()] of a flag returns: an [any] holding a [bool], a [string]
    or something else. *)
Inductive flagValue :=
  | BoolValue (b : bool)
  | StringValue (s : string)
  | OtherValue.

(** The values of the four flags of the analyzer, by flag name. *)
Record Flags := MkFlags {
  prettyPrintFlag : flagValue;
  includePkgsFlag : flagValue;
  excludePkgsFlag : flagValue;
  excludeFileDocStringsFlag : flagValue
}.

(** [run]: the configuration built from the flags, with a [nil] error. *)
Definition run (flags : Flags) : Config * option string :=
  let conf := MkConfig true [EmptyString] [] [] in
  let conf :=
    match prettyPrintFlag flags with
    | BoolValue prettyPrint =>
        MkConfig prettyPrint (includePkgs conf) (excludePkgs conf)
                 (excludeFileDocStrings conf)
    | _ => conf
    end in
  let conf :=
    match includePkgsFlag flags with
    | StringValue include =>
        if negb (String.eqb include EmptyString)
        then MkConfig (PrettyPrint conf) (SplitComma include) (excludePkgs conf)
                      (excludeFileDocStrings conf)
        else conf
    | _ => conf
    end in
  let conf :=
    match excludePkgsFlag flags with
    | StringValue exclude =>
        if negb (String.eqb exclude EmptyString)
        then MkConfig (PrettyPrint conf) (includePkgs conf) (SplitComma exclude)
                      (excludeFileDocStrings conf)
        else conf
    | _ => conf
    end in
  let conf :=
    match excludeFileDocStringsFlag flags with
    | StringValue docstrings =>
        if negb (String.eqb docstrings EmptyString)
        then MkConfig (PrettyPrint conf) (includePkgs conf) (excludePkgs conf)
                      (SplitComma docstrings)
        else conf
    | _ => conf
    end in
  (conf, None).

(** ** Vocabulary of the statements *)

(** [y] is reached from [x] through entered sites only. *)
Definition reach (ok : primitiveSite → Prop)
    (next : primitiveSite → list primitiveSite) (x y : primitiveSite) : Prop :=
  ok x ∧ rtc (λ a b, b ∈ next a ∧ ok b) x y.

(** The sites a closure enters: private and undetermined in the map. *)
Definition okSite (m : siteMap) (x : primitiveSite) : Prop :=
  Exported x = false ∧ undetermined m x.

(** The neighbours a closure follows from a site, in either direction. *)
Definition implicatesOf (m : siteMap) (x : primitiveSite) : list primitiveSite :=
  match m !! x with
  | Some (UndeterminedVal implicates _) => keysOf implicates
  | _ => []
  end.

Definition implicantsOf (m : siteMap) (x : primitiveSite) : list primitiveSite :=
  match m !! x with
  | Some (UndeterminedVal _ implicants) => keysOf implicants
  | _ => []
  end.

(** [s] is reached from a neighbour of an exported site along
    [Implicates], through private undetermined sites only. *)
Definition reachedFromExported (m : siteMap) (s : primitiveSite) : Prop :=
  ∃ e z, Exported e = true ∧ z ∈ implicatesOf m e ∧
    reach (okSite m) (implicatesOf m) z s.

(** The same along [Implicants]. *)
Definition reachesAnExported (m : siteMap) (s : primitiveSite) : Prop :=
  ∃ e z, Exported e = true ∧ z ∈ implicantsOf m e ∧
    reach (okSite m) (implicantsOf m) z s.

(** The edge sets of a site, empty when it has none. *)
Definition implicatesAt (m : siteMap) (s : primitiveSite) : sitesWithAssertions :=
  match m !! s with Some (UndeterminedVal a _) => a | _ => ∅ end.

Definition implicantsAt (m : siteMap) (s : primitiveSite) : sitesWithAssertions :=
  match m !! s with Some (UndeterminedVal _ b) => b | _ => ∅ end.

(** What a returning [StoreImplication] leaves in [i.mapping]. *)
Definition withImplication (from to : primitiveSite)
    (assertion : primitiveFullTrigger) (m : siteMap) : siteMap :=
  let m2 := <[from := UndeterminedVal
                (addSiteWithAssertion to assertion (implicatesAt m from))
                (implicantsAt m from)]> m in
  <[to := UndeterminedVal (implicatesAt m2 to)
            (addSiteWithAssertion from assertion (implicantsAt m2 to))]> m2.

(** The first loop of [StoreImplication], on the content. *)
Definition ensureContent (m : siteMap) (s : primitiveSite) : siteMap :=
  match m !! s with
  | None => <[s := UndeterminedVal newSitesWithAssertions newSitesWithAssertions]> m
  | Some _ => m
  end.

(** The invariant the mutations keep: between any two sites that are not
    determined, the two directions record the same triggers. *)
Definition edgesMirrored (m : siteMap) : Prop :=
  ∀ u v, isDetermined (m !! u) = false → isDetermined (m !! v) = false →
    implicatesAt m u !! v = implicantsAt m v !! u.

(** Whether a call panicked. *)
Definition panicked {A} (o : outcome A) : bool :=
  match o with Panicked _ => true | Returned _ => false end.

(** What the specification asks of a query on [key] that returned [r]. *)
Definition querySound (keyExported : annotationKey → bool) (key : annotationKey)
    (i : InferredMap) (h : Heap) (r : annotationVal * bool) : Prop :=
  let shallow := Load (newPrimitiveSite keyExported key false) i h in
  let deep := Load (newPrimitiveSite keyExported key true) i h in
  (r.2 = true ↔ isDetermined shallow = true ∧ isDetermined deep = true) ∧
  (r.2 = false → r.1 = EmptyVal) ∧
  (r.2 = true →
     ∃ shallowBool deepBool,
       shallow = Some (DeterminedVal shallowBool) ∧
       deep = Some (DeterminedVal deepBool) ∧
       r.1 = MkAnnotationVal (Val shallowBool) (Val deepBool) true true).

(** A flag that was not given: its value is the empty string, or no string. *)
Definition flagUnset (v : flagValue) : Prop :=
  match v with StringValue s => s = EmptyString | _ => True end.

(** The three states in which [StoreImplication] can leave [i.mapping]:
    after the loop that creates the endpoints (a panic on [from]), after
    the edge was added under [from] (a panic on [to]), and after it was
    added under [to] as well (the call returns). *)
Inductive implicationStage (from to : primitiveSite)
    (assertion : primitiveFullTrigger) (m : siteMap) : siteMap → Prop :=
  | stage_created :
      implicationStage from to assertion m
        (ensureContent (ensureContent m from) to)
  | stage_from a b :
      ensureContent (ensureContent m from) to !! from
        = Some (UndeterminedVal a b) →
      implicationStage from to assertion m
        (<[from := UndeterminedVal (addSiteWithAssertion to assertion a) b]>
           (ensureContent (ensureContent m from) to))
  | stage_to a b a' b' :
      ensureContent (ensureContent m from) to !! from
        = Some (UndeterminedVal a b) →
      <[from := UndeterminedVal (addSiteWithAssertion to assertion a) b]>
        (ensureContent (ensureContent m from) to) !! to
        = Some (UndeterminedVal a' b') →
      implicationStage from to assertion m
        (<[to := UndeterminedVal a' (addSiteWithAssertion from assertion b')]>
           (<[from := UndeterminedVal (addSiteWithAssertion to assertion a) b]>
              (ensureContent (ensureContent m from) to))).

(** Every neighbour recorded under an undetermined site is a key. *)
Definition neighboursPresent (m : siteMap) : Prop :=
  ∀ u a b, m !! u = Some (UndeterminedVal a b) →
    dom a ⊆ dom m ∧ dom b ⊆ dom m.

(** What the loop of [Export] stores for one entry of [i.mapping]. *)
Definition exportedEntry (sitesToExport : gset primitiveSite) (upstream : siteMap)
    (site : primitiveSite) (val : InferredVal) : option InferredVal :=
  if decide (site ∈ sitesToExport) then
    match upstream !! site with
    | Some upstreamVal =>
        match inferredValDiff val upstreamVal with
        | (Some diff, true) => Some diff
        | _ => None
        end
    | None => Some val
    end
  else None.

(** The entries [Export] puts in the map it builds. *)
Definition exportedContent (sitesToExport : gset primitiveSite)
    (upstream m : siteMap) : siteMap :=
  map_imap (exportedEntry sitesToExport upstream) m.

(** One call of the visitor of [Range], keeping the state it leaves. *)
Definition visit {A} (f : A → primitiveSite → InferredVal → A * bool)
    (a : A) (entry : primitiveSite * InferredVal) : A :=
  (f a entry.1 entry.2).1.

(** Whether the visitor, called on [entry] in state [a], asks to go on. *)
Definition goesOn {A} (f : A → primitiveSite → InferredVal → A * bool)
    (a : A) (entry : primitiveSite * InferredVal) : bool :=
  (f a entry.1 entry.2).2.

(** ** Scenarios *)

(** The scenarios iterate in the order of [map_to_list]. *)
Definition inOrder : rangeOrder :=
  RangeOrder (λ _ l, l) (λ _ l, Permutation_refl l).

(** The scenarios' second order: [map_to_list] backwards. *)
Definition reversedOrder : rangeOrder :=
  RangeOrder (λ _ l, reverse l) (λ _ l, reverse_Permutation l).

Definition exportedSite (name : string) : primitiveSite :=
  PrimitiveSite (GlobalVarAnnotationKey name) false true.

Definition privateSite (name : string) : primitiveSite :=
  PrimitiveSite (GlobalVarAnnotationKey name) false false.

Definition E1 := exportedSite "E1".
Definition E2 := exportedSite "E2".
Definition P1 := privateSite "p1".
Definition P2 := privateSite "p2".
Definition P3 := privateSite "p3".
Definition t1 := PrimitiveFullTrigger "t1".
Definition t2 := PrimitiveFullTrigger "t2".
Definition nilLiteral := MkExplainedBool true "nil literal".

(** A new, empty [InferredMap] on the empty heap. *)
Definition i0 : InferredMap := (newInferredMap ∅).1.
Definition h0 : Heap := (newInferredMap ∅).2.

(** Scenario S2: the private chain P1 => P2 => P3. *)
Definition callsS2 : list mutation :=
  [CallStoreImplication P1 P2 t1; CallStoreImplication P2 P3 t1].
Definition hS2 : Heap := heapOf (runMutations i0 callsS2 h0).

(** Scenario S3: the chain E1 => P1 => P2 => E2. *)
Definition callsS3 : list mutation :=
  [CallStoreImplication E1 P1 t1; CallStoreImplication P1 P2 t1;
   CallStoreImplication P2 E2 t1].
Definition hS3 : Heap := heapOf (runMutations i0 callsS3 h0).

(** An edge is stored, then its target is overwritten by a verdict. *)
Definition callsOverwrite : list mutation :=
  [CallStoreImplication E1 P1 t1; CallStoreDetermined P1 nilLiteral].
Definition hOverwrite : Heap := heapOf (runMutations i0 callsOverwrite h0).

(** The two calls of scenario S6. *)
Definition hS6 : Heap :=
  heapOf (runMutations i0
            [CallStoreImplication E1 P1 t1; CallStoreImplication E1 P1 t2] h0).

(** Scenario S1: both sites of an entity are determined, then queried. *)
Definition shallowA := newPrimitiveSite (λ _, true) (GlobalVarAnnotationKey "A") false.
Definition deepA := newPrimitiveSite (λ _, true) (GlobalVarAnnotationKey "A") true.

Definition hS1 : Heap :=
  StoreDetermined deepA (MkExplainedBool false "typed array") i0
    (StoreDetermined shallowA (MkExplainedBool true "nil literal") i0 h0).

(** Scenario S4: E1 => P1 with no way back from P1. *)
Definition hS4 : Heap := heapOf (StoreImplication E1 P1 t1 i0 h0).

(** Scenario S5: an upstream verdict on A, then a local edge E1 => E2. *)
Definition iS5 : InferredMap := MkInferredMap 1 2.

Definition hS5 : Heap :=
  heapOf (StoreImplication E1 E2 t1 iS5
            {[ 1%positive := {[ exportedSite "A" := DeterminedVal nilLiteral ]};
               2%positive := {[ exportedSite "A" := DeterminedVal nilLiteral ]} ]}).

(** A payload with a verdict and an edge, replayed into both maps. *)
Definition upstreamPayload : siteMap :=
  {[ E1 := UndeterminedVal {[E2 := {[t1]}]} ∅;
     E2 := UndeterminedVal ∅ {[E1 := {[t1]}]};
     exportedSite "A" := DeterminedVal nilLiteral ]}.
Definition iReplayed : InferredMap := MkInferredMap 1 2.
Definition hReplayed : Heap := {[ 1%positive := upstreamPayload; 2%positive := upstreamPayload ]}.

(** A map whose two directions disagree: P1 is recorded under
    [E1.Implicates] and E2 under [P1.Implicates], but [E2.Implicants]
    does not record P1. *)
Definition mOneSided : siteMap :=
  {[ E1 := UndeterminedVal {[P1 := {[t1]}]} ∅;
     P1 := UndeterminedVal {[E2 := {[t1]}]} {[E1 := {[t1]}]};
     E2 := UndeterminedVal ∅ ∅ ]}.
Definition iRaw : InferredMap := MkInferredMap 1 2.
Definition hOneSided : Heap := {[ 1%positive := ∅; 2%positive := mOneSided ]}.

(** A map in which P1 is recorded under [E1.Implicates] and under
    [E2.Implicants], while P1 itself records no edge. *)
Definition mDangling : siteMap :=
  {[ E1 := UndeterminedVal {[P1 := {[t1]}]} ∅;
     P1 := UndeterminedVal ∅ ∅;
     E2 := UndeterminedVal ∅ {[P1 := {[t1]}]} ]}.
Definition hDangling : Heap := {[ 1%positive := ∅; 2%positive := mDangling ]}.

(** A codec for the scenarios: the entries are numbered by the countable
    encoding of maps, and the number is written bit by bit. *)
Fixpoint positiveToBytes (p : positive) : list Byte.byte :=
  match p with
  | xH => []
  | xO p' => Byte.x00 :: positiveToBytes p'
  | xI p' => Byte.x01 :: positiveToBytes p'
  end.

Fixpoint bytesToPositive (buf : list Byte.byte) : option positive :=
  match buf with
  | [] => Some xH
  | Byte.x00 :: buf' => xO <$> bytesToPositive buf'
  | Byte.x01 :: buf' => xI <$> bytesToPositive buf'
  | _ => None
  end.

Definition scenarioEncode (m : siteMap) : list Byte.byte * option string :=
  (positiveToBytes (encode m), None).

Definition scenarioDecode (buf : list Byte.byte) : siteMap * option string :=
  match bytesToPositive buf ≫= decode with
  | Some m => (m, None)
  | None => (∅, Some "gob: malformed input")
  end.

(** * Verification *)

(** ** Depth-first marking, in general

    Both closures of the selector are the same traversal: [te] is
    [toExport], [mine] the flag set of the traversal and [other] the flag
    set of the opposite traversal, which it only reads; [ok] tells the
    sites it enters and [next] lists the neighbours it follows. *)

Section Marking.

Variable ok : primitiveSite → Prop.
Variable next : primitiveSite → list primitiveSite.
Variable other : gset primitiveSite.

(** What a traversal started at each of [roots] in turn achieves between
    the sets before ([te], [mine]) and after ([te'], [mine']). *)
Record markSpec (roots : list primitiveSite)
    (te mine te' mine' : gset primitiveSite) : Prop := MarkSpec {
  ms_te : te ⊆ te';
  ms_mine : mine ⊆ mine';
  ms_new_te : ∀ y, y ∈ te' → y ∉ te → y ∈ other ∧ ok y;
  ms_new_mine : ∀ y, y ∈ mine' → y ∉ mine → (y ∉ other) ∧ ok y;
  ms_roots : ∀ z, z ∈ roots → ok z → z ∈ te' ∪ mine';
  ms_closed : ∀ y, y ∈ te' ∪ mine' → y ∉ te ∪ mine →
                ∀ z, z ∈ next y → ok z → z ∈ te' ∪ mine';
  ms_sound : ∀ y, y ∈ te' ∪ mine' → y ∉ te ∪ mine →
               ∃ z, z ∈ roots ∧ reach ok next z y
}.

Lemma markSpec_nil te mine : markSpec [] te mine te mine.
Proof. split; set_solver. Qed.

Lemma markSpec_skip x te mine :
  (ok x → x ∈ te ∪ mine) → markSpec [x] te mine te mine.
Proof. intros Hx. split; set_solver. Qed.

Lemma markSpec_app l1 l2 te mine te1 mine1 te2 mine2 :
  markSpec l1 te mine te1 mine1 →
  markSpec l2 te1 mine1 te2 mine2 →
  markSpec (l1 ++ l2) te mine te2 mine2.
Proof.
  intros [A1 A2 A3 A4 A5 A6 A7] [B1 B2 B3 B4 B5 B6 B7]. split.
  - set_solver.
  - set_solver.
  - intros y Hy Hn. destruct (decide (y ∈ te1)); [apply A3 | apply B3]; done.
  - intros y Hy Hn. destruct (decide (y ∈ mine1)); [apply A4 | apply B4]; done.
  - intros z [Hz|Hz]%elem_of_app Hok.
    + specialize (A5 z Hz Hok). set_solver.
    + by apply B5.
  - intros y Hy Hn z Hz Hok.
    destruct (decide (y ∈ te1 ∪ mine1)) as [Hin|Hout].
    + specialize (A6 y Hin Hn z Hz Hok). set_solver.
    + by apply (B6 y).
  - intros y Hy Hn.
    destruct (decide (y ∈ te1 ∪ mine1)) as [Hin|Hout].
    + destruct (A7 y Hin Hn) as (z & Hz & Hr). exists z. set_solver.
    + destruct (B7 y Hy Hout) as (z & Hz & Hr). exists z. set_solver.
Qed.

Lemma markSpec_cons x l te mine te1 mine1 te2 mine2 :
  markSpec [x] te mine te1 mine1 →
  markSpec l te1 mine1 te2 mine2 →
  markSpec (x :: l) te mine te2 mine2.
Proof. apply (markSpec_app [x] l). Qed.

(** Only the members of [roots] matter, not their order. *)
Lemma markSpec_roots l l' te mine te' mine' :
  (∀ z, z ∈ l ↔ z ∈ l') →
  markSpec l te mine te' mine' → markSpec l' te mine te' mine'.
Proof.
  intros Heq [A1 A2 A3 A4 A5 A6 A7]. split; try done.
  - intros z Hz. apply A5. by apply Heq.
  - intros y Hy Hn. destruct (A7 y Hy Hn) as (z & Hz & Hr).
    exists z. split; [by apply Heq|done].
Qed.

(** Entering [x]: it is flagged, or exported when the opposite traversal
    has flagged it, and then its neighbours are traversed. *)
Lemma markSpec_enter x te mine te' mine' :
  ok x → x ∉ te ∪ mine →
  markSpec (next x)
    (if bool_decide (x ∈ other) then {[x]} ∪ te else te)
    (if bool_decide (x ∈ other) then mine else {[x]} ∪ mine)
    te' mine' →
  markSpec [x] te mine te' mine'.
Proof.
  intros Hok Hx [A1 A2 A3 A4 A5 A6 A7].
  assert (Hxin : x ∈ te' ∪ mine') by (case_bool_decide; set_solver).
  split.
  - case_bool_decide; set_solver.
  - case_bool_decide; set_solver.
  - intros y Hy Hn. destruct (decide (y = x)) as [->|Hne].
    + split; [|done]. case_bool_decide; [done|]. apply A3; [done|]. set_solver.
    + apply A3; [done|]. case_bool_decide; set_solver.
  - intros y Hy Hn. destruct (decide (y = x)) as [->|Hne].
    + split; [|done]. case_bool_decide; [|done].
      intros _. apply (A4 x); [done|set_solver|done].
    + apply A4; [done|]. case_bool_decide; set_solver.
  - intros z ->%list_elem_of_singleton _. done.
  - intros y Hy Hn z Hz Hokz. destruct (decide (y = x)) as [->|Hne].
    + by apply A5.
    + apply (A6 y); [done| |done|done]. case_bool_decide; set_solver.
  - intros y Hy Hn. exists x. split; [set_solver|].
    destruct (decide (y = x)) as [->|Hne]; [by split|].
    destruct (A7 y Hy) as (z & Hz & Hokz & Hr).
    { case_bool_decide; set_solver. }
    split; [done|]. by eapply rtc_l.
Qed.

End Marking.

(** The number of sites of [U] not yet visited bounds the depth. *)
Lemma unvisited_mono (U te mine te' mine' : gset primitiveSite) :
  te ⊆ te' → mine ⊆ mine' →
  size (U ∖ (te' ∪ mine')) ≤ size (U ∖ (te ∪ mine)).
Proof. intros. apply subseteq_size. set_solver. Qed.

Lemma unvisited_enter (other U te mine : gset primitiveSite) x :
  x ∈ U → x ∉ te ∪ mine →
  size (U ∖ ((if bool_decide (x ∈ other) then {[x]} ∪ te else te)
             ∪ (if bool_decide (x ∈ other) then mine else {[x]} ∪ mine)))
  < size (U ∖ (te ∪ mine)).
Proof.
  intros HU Hx. apply subset_size. case_bool_decide; set_solver.
Qed.

(** ** The two closures of the selector *)

Lemma elem_of_keysOf {V} (m : gmap primitiveSite V) x : x ∈ keysOf m ↔ x ∈ dom m.
Proof.
  unfold keysOf. rewrite elem_of_dom, list_elem_of_fmap. split.
  - intros ([y v] & -> & Hin). apply elem_of_map_to_list in Hin. by exists v.
  - intros [v Hv]. exists (x, v). split; [done|]. by apply elem_of_map_to_list.
Qed.

Lemma elem_of_rangeList order {A} (l : list A) x : x ∈ rangeList order A l ↔ x ∈ l.
Proof. by rewrite (rangeList_perm order A l). Qed.

Lemma elem_of_sitesOf order (s : sitesWithAssertions) x :
  x ∈ sitesOf order s ↔ x ∈ keysOf s.
Proof. apply elem_of_rangeList. Qed.

Lemma okSite_dom m x : okSite m x → x ∈ dom m.
Proof.
  intros [_ Hu]. unfold undetermined in Hu. apply elem_of_dom.
  destruct (m !! x); [done|discriminate].
Qed.

Section Folding.

Variable ok : primitiveSite → Prop.
Variable next : primitiveSite → list primitiveSite.
Variable U : gset primitiveSite.
Variables mine oth : marks → gset primitiveSite.
Variable g : primitiveSite → marks → option marks.
Variable fuel : nat.

Hypothesis g_spec : ∀ x st,
  size (U ∖ (toExport st ∪ mine st)) < fuel →
  ∃ st', g x st = Some st' ∧ oth st' = oth st ∧
    markSpec ok next (oth st) [x] (toExport st) (mine st) (toExport st') (mine st').

(** A [range] loop that calls the closure on every neighbour. *)
Lemma fold_markSpec l : ∀ st,
  size (U ∖ (toExport st ∪ mine st)) < fuel →
  ∃ st', foldl (λ acc x, acc ≫= g x) (Some st) l = Some st' ∧
    oth st' = oth st ∧
    markSpec ok next (oth st) l (toExport st) (mine st) (toExport st') (mine st').
Proof.
  induction l as [|x l IH]; intros st Hsz.
  - exists st. split; [done|]. split; [done|]. apply markSpec_nil.
  - destruct (g_spec x st Hsz) as (st1 & Hg & Ho & Hs1).
    destruct (IH st1) as (st2 & Hf & Ho2 & Hs2).
    { eapply Nat.le_lt_trans; [|exact Hsz].
      apply unvisited_mono; [apply (ms_te _ _ _ _ _ _ _ _ Hs1)
                            |apply (ms_mine _ _ _ _ _ _ _ _ Hs1)]. }
    exists st2. split; [|split].
    + simpl. by rewrite Hg.
    + congruence.
    + rewrite Ho in Hs2. by eapply markSpec_cons.
Qed.

End Folding.

Lemma markReachableFromExported_spec order m fuel : ∀ x st,
  size (dom m ∖ (toExport st ∪ reachableFromExported st)) < fuel →
  ∃ st', markReachableFromExported order fuel m x st = Some st' ∧
    reachesExported st' = reachesExported st ∧
    markSpec (okSite m) (implicatesOf m) (reachesExported st) [x]
      (toExport st) (reachableFromExported st)
      (toExport st') (reachableFromExported st').
Proof.
  induction fuel as [|fuel IH]; intros x st Hsz; [lia|].
  assert (Hskip : (okSite m x → x ∈ toExport st ∪ reachableFromExported st) →
    ∃ st', Some st = Some st' ∧ reachesExported st' = reachesExported st ∧
      markSpec (okSite m) (implicatesOf m) (reachesExported st) [x]
        (toExport st) (reachableFromExported st)
        (toExport st') (reachableFromExported st')).
  { intros Hx. exists st. split; [done|]. split; [done|]. by apply markSpec_skip. }
  simpl. destruct (m !! x) as [[b|implicates implicants]|] eqn:Hm.
  - apply Hskip. intros [_ Hu]. unfold undetermined in Hu. by rewrite Hm in Hu.
  - destruct (Exported x) eqn:He; simpl.
    { apply Hskip. intros [He' _]. congruence. }
    case_bool_decide as Hte; simpl; [apply Hskip; set_solver|].
    case_bool_decide as Hrfe; simpl; [apply Hskip; set_solver|].
    assert (Hok : okSite m x).
    { split; [done|]. unfold undetermined. by rewrite Hm. }
    assert (Hx : x ∉ toExport st ∪ reachableFromExported st) by set_solver.
    set (st1 := if bool_decide (x ∈ reachesExported st) then _ else _).
    assert (Hte1 : toExport st1 =
      if bool_decide (x ∈ reachesExported st)
      then {[x]} ∪ toExport st else toExport st)
      by (subst st1; by case_bool_decide).
    assert (Hmine1 : reachableFromExported st1 =
      if bool_decide (x ∈ reachesExported st)
      then reachableFromExported st else {[x]} ∪ reachableFromExported st)
      by (subst st1; by case_bool_decide).
    assert (Hoth1 : reachesExported st1 = reachesExported st)
      by (subst st1; by case_bool_decide).
    destruct (fold_markSpec (okSite m) (implicatesOf m) (dom m)
                reachableFromExported reachesExported
                (markReachableFromExported order fuel m) fuel IH
                (sitesOf order implicates) st1) as (st' & Hf & Ho & Hs).
    { rewrite Hte1, Hmine1.
      pose proof (unvisited_enter (reachesExported st) (dom m) _ _ x
                    (okSite_dom _ _ Hok) Hx). lia. }
    exists st'. split; [done|]. split; [congruence|].
    apply markSpec_enter; [done|done|].
    rewrite Hoth1, Hte1, Hmine1 in Hs.
    apply (markSpec_roots _ _ _ (sitesOf order implicates)); [|done].
    intros z. unfold implicatesOf. rewrite Hm. apply elem_of_sitesOf.
  - apply Hskip. intros [_ Hu]. unfold undetermined in Hu. by rewrite Hm in Hu.
Qed.

Lemma markReachesExported_spec order m fuel : ∀ x st,
  size (dom m ∖ (toExport st ∪ reachesExported st)) < fuel →
  ∃ st', markReachesExported order fuel m x st = Some st' ∧
    reachableFromExported st' = reachableFromExported st ∧
    markSpec (okSite m) (implicantsOf m) (reachableFromExported st) [x]
      (toExport st) (reachesExported st)
      (toExport st') (reachesExported st').
Proof.
  induction fuel as [|fuel IH]; intros x st Hsz; [lia|].
  assert (Hskip : (okSite m x → x ∈ toExport st ∪ reachesExported st) →
    ∃ st', Some st = Some st' ∧
      reachableFromExported st' = reachableFromExported st ∧
      markSpec (okSite m) (implicantsOf m) (reachableFromExported st) [x]
        (toExport st) (reachesExported st)
        (toExport st') (reachesExported st')).
  { intros Hx. exists st. split; [done|]. split; [done|]. by apply markSpec_skip. }
  simpl. destruct (m !! x) as [[b|implicates implicants]|] eqn:Hm.
  - apply Hskip. intros [_ Hu]. unfold undetermined in Hu. by rewrite Hm in Hu.
  - destruct (Exported x) eqn:He; simpl.
    { apply Hskip. intros [He' _]. congruence. }
    case_bool_decide as Hte; simpl; [apply Hskip; set_solver|].
    case_bool_decide as Hre; simpl; [apply Hskip; set_solver|].
    assert (Hok : okSite m x).
    { split; [done|]. unfold undetermined. by rewrite Hm. }
    assert (Hx : x ∉ toExport st ∪ reachesExported st) by set_solver.
    set (st1 := if bool_decide (x ∈ reachableFromExported st) then _ else _).
    assert (Hte1 : toExport st1 =
      if bool_decide (x ∈ reachableFromExported st)
      then {[x]} ∪ toExport st else toExport st)
      by (subst st1; by case_bool_decide).
    assert (Hmine1 : reachesExported st1 =
      if bool_decide (x ∈ reachableFromExported st)
      then reachesExported st else {[x]} ∪ reachesExported st)
      by (subst st1; by case_bool_decide).
    assert (Hoth1 : reachableFromExported st1 = reachableFromExported st)
      by (subst st1; by case_bool_decide).
    destruct (fold_markSpec (okSite m) (implicantsOf m) (dom m)
                reachesExported reachableFromExported
                (markReachesExported order fuel m) fuel IH
                (sitesOf order implicants) st1) as (st' & Hf & Ho & Hs).
    { rewrite Hte1, Hmine1.
      pose proof (unvisited_enter (reachableFromExported st) (dom m) _ _ x
                    (okSite_dom _ _ Hok) Hx). lia. }
    exists st'. split; [done|]. split; [congruence|].
    apply markSpec_enter; [done|done|].
    rewrite Hoth1, Hte1, Hmine1 in Hs.
    apply (markSpec_roots _ _ _ (sitesOf order implicants)); [|done].
    intros z. unfold implicantsOf. rewrite Hm. apply elem_of_sitesOf.
  - apply Hskip. intros [_ Hu]. unfold undetermined in Hu. by rewrite Hm in Hu.
Qed.

(** ** The loop of [chooseSitesToExport] *)

Section Half.

Variable ok : primitiveSite → Prop.
Variable next : primitiveSite → list primitiveSite.

(** What the loop maintains for one direction: the visited sites are
    closed under [next], and each was reached from a neighbour of an
    exported site. *)
Record halfInv (te mine : gset primitiveSite) : Prop := HalfInv {
  hi_closed : ∀ y, y ∈ te ∪ mine → ok y →
                ∀ z, z ∈ next y → ok z → z ∈ te ∪ mine;
  hi_sound : ∀ y, y ∈ te ∪ mine → ok y →
               ∃ e z, Exported e = true ∧ z ∈ next e ∧ reach ok next z y
}.

Lemma halfInv_empty : halfInv ∅ ∅.
Proof. split; set_solver. Qed.

(** The traversal of this direction preserves it. *)
Lemma halfInv_own other roots te mine te' mine' :
  halfInv te mine →
  markSpec ok next other roots te mine te' mine' →
  (∀ z, z ∈ roots → ∃ e, Exported e = true ∧ z ∈ next e) →
  halfInv te' mine'.
Proof.
  intros [C S] [A1 A2 A3 A4 A5 A6 A7] Hroots. split.
  - intros y Hy Hok z Hz Hokz.
    destruct (decide (y ∈ te ∪ mine)) as [Hin|Hout].
    + specialize (C y Hin Hok z Hz Hokz). set_solver.
    + by apply (A6 y).
  - intros y Hy Hok.
    destruct (decide (y ∈ te ∪ mine)) as [Hin|Hout]; [by apply S|].
    destruct (A7 y Hy Hout) as (z & Hz & Hr).
    destruct (Hroots z Hz) as (e & He & Hze). by exists e, z.
Qed.

(** So does whatever only exports sites that this direction has flagged
    already, or sites that no traversal enters. *)
Lemma halfInv_other te mine te' :
  halfInv te mine →
  te ⊆ te' →
  (∀ y, y ∈ te' → y ∉ te → y ∈ mine ∨ ¬ ok y) →
  halfInv te' mine.
Proof.
  intros [C S] Hsub Hnew.
  assert (Hsame : ∀ y, y ∈ te' ∪ mine → ok y → y ∈ te ∪ mine).
  { intros y Hy Hok. destruct (decide (y ∈ te)); [set_solver|].
    apply elem_of_union in Hy as [Hy|Hy]; [|set_solver].
    destruct (Hnew y Hy) as [?|?]; [done|set_solver|done]. }
  split.
  - intros y Hy Hok z Hz Hokz.
    specialize (C y (Hsame y Hy Hok) Hok z Hz Hokz). set_solver.
  - intros y Hy Hok. apply S; [by apply Hsame|done].
Qed.

End Half.

(** The neighbours of the exported sites already iterated over have been
    handed to the closures. *)
Definition rootsSeen (next : primitiveSite → list primitiveSite)
    (ok : primitiveSite → Prop) (done : list primitiveSite)
    (seen : gset primitiveSite) : Prop :=
  ∀ e z, e ∈ done → Exported e = true → z ∈ next e → ok z → z ∈ seen.

Record selInv (m : siteMap) (done : list primitiveSite) (st : marks)
    : Prop := SelInv {
  si_disjoint : ∀ y, y ∈ reachableFromExported st → y ∉ reachesExported st;
  si_toExport : ∀ y, y ∈ toExport st →
                  (Exported y = true ∧ y ∈ dom m) ∨ okSite m y;
  si_exported : ∀ e, e ∈ done → Exported e = true → e ∈ toExport st;
  si_fwd : halfInv (okSite m) (implicatesOf m)
             (toExport st) (reachableFromExported st);
  si_bwd : halfInv (okSite m) (implicantsOf m)
             (toExport st) (reachesExported st);
  si_fwd_roots : rootsSeen (implicatesOf m) (okSite m) done
                   (toExport st ∪ reachableFromExported st);
  si_bwd_roots : rootsSeen (implicantsOf m) (okSite m) done
                   (toExport st ∪ reachesExported st)
}.

Lemma selInv_init m : selInv m [] (Marks ∅ ∅ ∅).
Proof.
  split; simpl; try apply halfInv_empty; try set_solver.
  all: intros e z He; by apply elem_of_nil in He.
Qed.

Lemma dom_unvisited_bound (m : siteMap) (V : gset primitiveSite) :
  size (dom m ∖ V) < S (size m).
Proof.
  rewrite <- size_dom. apply Nat.lt_succ_r, subseteq_size. set_solver.
Qed.

Lemma selInv_export m done st e :
  selInv m done st → Exported e = true → e ∈ dom m →
  selInv m done
    (Marks ({[e]} ∪ toExport st) (reachableFromExported st) (reachesExported st)).
Proof.
  intros [D T E F B RF RB] He Hin.
  assert (Hnok : ¬ okSite m e) by (intros [? _]; congruence).
  split; simpl.
  - done.
  - intros y [->%elem_of_singleton|Hy]%elem_of_union; [by left|by apply T].
  - intros e' ? ?. apply elem_of_union_r. by apply E.
  - apply (halfInv_other _ _ (toExport st)); [done|set_solver|].
    intros y Hy Hn. right. assert (y = e) as -> by set_solver. done.
  - apply (halfInv_other _ _ (toExport st)); [done|set_solver|].
    intros y Hy Hn. right. assert (y = e) as -> by set_solver. done.
  - intros e' z ? ? ? ?. specialize (RF e' z). set_solver.
  - intros e' z ? ? ? ?. specialize (RB e' z). set_solver.
Qed.

Lemma selInv_backward m done st st' roots :
  selInv m done st →
  reachableFromExported st' = reachableFromExported st →
  markSpec (okSite m) (implicantsOf m) (reachableFromExported st) roots
    (toExport st) (reachesExported st) (toExport st') (reachesExported st') →
  (∀ z, z ∈ roots → ∃ e, Exported e = true ∧ z ∈ implicantsOf m e) →
  selInv m done st'.
Proof.
  intros [D T E F B RF RB] Hsame Hs Hroots.
  pose proof Hs as [A1 A2 A3 A4 A5 A6 A7].
  split; rewrite ?Hsame.
  - intros y Hy Hre. destruct (decide (y ∈ reachesExported st)) as [Hold|Hnew].
    + by apply (D y).
    + by destruct (A4 y Hre Hnew).
  - intros y Hy. destruct (decide (y ∈ toExport st)) as [Hold|Hnew].
    + by apply T.
    + right. by destruct (A3 y Hy Hnew).
  - intros e' ? ?. apply A1. by apply E.
  - apply (halfInv_other _ _ (toExport st)); [done|done|].
    intros y Hy Hn. left. by destruct (A3 y Hy Hn).
  - by eapply halfInv_own.
  - intros e' z ? ? ? ?. specialize (RF e' z). set_solver.
  - intros e' z ? ? ? ?. specialize (RB e' z). set_solver.
Qed.

Lemma selInv_forward m done st st' roots :
  selInv m done st →
  reachesExported st' = reachesExported st →
  markSpec (okSite m) (implicatesOf m) (reachesExported st) roots
    (toExport st) (reachableFromExported st)
    (toExport st') (reachableFromExported st') →
  (∀ z, z ∈ roots → ∃ e, Exported e = true ∧ z ∈ implicatesOf m e) →
  selInv m done st'.
Proof.
  intros [D T E F B RF RB] Hsame Hs Hroots.
  pose proof Hs as [A1 A2 A3 A4 A5 A6 A7].
  split; rewrite ?Hsame.
  - intros y Hy Hre. destruct (decide (y ∈ reachableFromExported st)) as [Hold|Hnew].
    + by apply (D y).
    + by destruct (A4 y Hy Hnew).
  - intros y Hy. destruct (decide (y ∈ toExport st)) as [Hold|Hnew].
    + by apply T.
    + right. by destruct (A3 y Hy Hnew).
  - intros e' ? ?. apply A1. by apply E.
  - by eapply halfInv_own.
  - apply (halfInv_other _ _ (toExport st)); [done|done|].
    intros y Hy Hn. left. by destruct (A3 y Hy Hn).
  - intros e' z ? ? ? ?. specialize (RF e' z). set_solver.
  - intros e' z ? ? ? ?. specialize (RB e' z). set_solver.
Qed.

Lemma selInv_cons m done st e :
  selInv m done st →
  (Exported e = true →
     e ∈ toExport st ∧
     (∀ z, z ∈ implicatesOf m e → okSite m z →
        z ∈ toExport st ∪ reachableFromExported st) ∧
     (∀ z, z ∈ implicantsOf m e → okSite m z →
        z ∈ toExport st ∪ reachesExported st)) →
  selInv m (e :: done) st.
Proof.
  intros [D T E F B RF RB] He. split; try done.
  - intros e' [->|?]%elem_of_cons Hexp; [by apply He|by apply E].
  - intros e' z [->|?]%elem_of_cons Hexp; [by apply He|by apply RF].
  - intros e' z [->|?]%elem_of_cons Hexp; [by apply He|by apply RB].
Qed.

(** Only the members of [done] matter. *)
Lemma selInv_done m done done' st :
  selInv m done st → (∀ e, e ∈ done' → e ∈ done) → selInv m done' st.
Proof.
  intros [D T E F B RF RB] Hsub. split; try done.
  - intros e He. by apply E, Hsub.
  - intros e z He. by apply RF, Hsub.
  - intros e z He. by apply RB, Hsub.
Qed.

Lemma visitExported_spec order m fuel done st e :
  size m < fuel → e ∈ dom m → selInv m done st →
  ∃ st', visitExported order fuel m (Some st) e = Some st' ∧ selInv m (e :: done) st'.
Proof.
  intros Hfuel Hin Hinv. unfold visitExported. simpl.
  destruct (Exported e) eqn:He; simpl.
  2:{ exists st. split; [done|]. apply selInv_cons; [done|]. intros ?; congruence. }
  pose proof (selInv_export m done st e Hinv He Hin) as Hinv1.
  set (st1 := Marks _ _ _) in *.
  assert (Hbound : ∀ V : gset primitiveSite, size (dom m ∖ V) < fuel).
  { intros V. pose proof (dom_unvisited_bound m V). lia. }
  destruct (m !! e) as [[b|implicates implicants]|] eqn:Hm.
  - exists st1. split; [done|]. apply selInv_cons; [done|]. intros _.
    unfold implicatesOf, implicantsOf. rewrite Hm.
    split; [subst st1; set_solver|]. split; intros z Hz; by apply elem_of_nil in Hz.
  - destruct (fold_markSpec (okSite m) (implicantsOf m) (dom m)
                reachesExported reachableFromExported
                (markReachesExported order fuel m) fuel
                (markReachesExported_spec order m fuel)
                (sitesOf order implicants) st1 (Hbound _)) as (st2 & Hf2 & Ho2 & Hs2).
    destruct (fold_markSpec (okSite m) (implicatesOf m) (dom m)
                reachableFromExported reachesExported
                (markReachableFromExported order fuel m) fuel
                (markReachableFromExported_spec order m fuel)
                (sitesOf order implicates) st2 (Hbound _)) as (st3 & Hf3 & Ho3 & Hs3).
    assert (Hinv2 : selInv m done st2).
    { apply (selInv_backward m done st1 st2 (sitesOf order implicants)); [done..|].
      intros z Hz%elem_of_sitesOf. exists e. split; [done|].
      unfold implicantsOf. by rewrite Hm. }
    assert (Hinv3 : selInv m done st3).
    { apply (selInv_forward m done st2 st3 (sitesOf order implicates)); [done..|].
      intros z Hz%elem_of_sitesOf. exists e. split; [done|].
      unfold implicatesOf. by rewrite Hm. }
    exists st3. split.
    { rewrite Hf2. simpl. exact Hf3. }
    apply selInv_cons; [done|]. intros _.
    pose proof (ms_te _ _ _ _ _ _ _ _ Hs2) as Hte2.
    pose proof (ms_te _ _ _ _ _ _ _ _ Hs3) as Hte3.
    split; [subst st1; set_solver|]. split.
    + intros z Hz Hok. apply (ms_roots _ _ _ _ _ _ _ _ Hs3); [|done].
      unfold implicatesOf in Hz. rewrite Hm in Hz. by apply elem_of_sitesOf.
    + intros z Hz Hok.
      assert (z ∈ toExport st2 ∪ reachesExported st2) as Hz2.
      { apply (ms_roots _ _ _ _ _ _ _ _ Hs2); [|done].
        unfold implicantsOf in Hz. rewrite Hm in Hz. by apply elem_of_sitesOf. }
      rewrite Ho3. set_solver.
  - exists st1. split; [done|]. apply selInv_cons; [done|]. intros _.
    unfold implicatesOf, implicantsOf. rewrite Hm.
    split; [subst st1; set_solver|]. split; intros z Hz; by apply elem_of_nil in Hz.
Qed.

(** The loop never runs out of fuel and ends in a state that satisfies the
    invariant for every key of the map. *)
Lemma chooseSitesWithFuel_enough order m fuel :
  size m < fuel →
  ∃ st, chooseSitesWithFuel order fuel m = Some st ∧ selInv m (reverse (keysOf m)) st.
Proof.
  intros Hfuel. unfold chooseSitesWithFuel.
  assert (Hloop : ∀ l, (∀ e, e ∈ l → e ∈ dom m) →
    ∃ st, foldl (visitExported order fuel m) (Some (Marks ∅ ∅ ∅)) l = Some st ∧
      selInv m (reverse l) st).
  { intros l. induction l as [|e l IH] using rev_ind; intros Hkeys.
    - exists (Marks ∅ ∅ ∅). split; [done|]. apply selInv_init.
    - destruct IH as (st & Hf & Hinv). { intros; apply Hkeys; set_solver. }
      destruct (visitExported_spec order m fuel (reverse l) st e)
        as (st' & Hv & Hinv'); [done|apply Hkeys; set_solver|done|].
      exists st'. rewrite foldl_app, reverse_app. simpl. by rewrite Hf. }
  destruct (Hloop (rangeList order _ (keysOf m))) as (st & Hf & Hinv).
  { intros e He%elem_of_rangeList. by apply elem_of_keysOf. }
  exists st. split; [done|]. apply (selInv_done m _ _ st Hinv).
  intros e. by rewrite !elem_of_reverse, elem_of_rangeList.
Qed.

(** ** Paths and the selected set *)

Lemma elem_of_keys (m : siteMap) e :
  e ∈ reverse (keysOf m) ↔ e ∈ dom m.
Proof. by rewrite elem_of_reverse, elem_of_keysOf. Qed.

Lemma implicatesEdge_of m u v : implicatesEdge m u v ↔ v ∈ implicatesOf m u.
Proof.
  unfold implicatesEdge, implicatesOf. split.
  - intros (a & b & -> & Hv). by apply elem_of_keysOf.
  - destruct (m !! u) as [[?|a b]|]; try by intros ?%elem_of_nil.
    intros Hv%elem_of_keysOf. by exists a, b.
Qed.

Lemma implicantsEdge_of m v u : implicantsEdge m v u ↔ u ∈ implicantsOf m v.
Proof.
  unfold implicantsEdge, implicantsOf. split.
  - intros (a & b & -> & Hv). by apply elem_of_keysOf.
  - destruct (m !! v) as [[?|a b]|]; try by intros ?%elem_of_nil.
    intros Hv%elem_of_keysOf. by exists a, b.
Qed.

Lemma implicatesEdge_undetermined m u v : implicatesEdge m u v → undetermined m u.
Proof. intros (a & b & Hu & _). unfold undetermined. by rewrite Hu. Qed.

Lemma implicantsEdge_undetermined m v u : implicantsEdge m v u → undetermined m v.
Proof. intros (a & b & Hv & _). unfold undetermined. by rewrite Hv. Qed.

Lemma undetermined_dom m s : undetermined m s → s ∈ dom m.
Proof.
  unfold undetermined. intros Hs. apply elem_of_dom.
  destruct (m !! s); [done|discriminate].
Qed.

Lemma undetermined_lookup m s :
  undetermined m s → ∃ a b, m !! s = Some (UndeterminedVal a b).
Proof.
  unfold undetermined. destruct (m !! s) as [[?|a b]|]; try discriminate.
  by exists a, b.
Qed.

Lemma edgeSymmetric_mirror m u v :
  edgeSymmetric m → implicatesEdge m u v → undetermined m v → implicantsEdge m v u.
Proof.
  intros Hsym (au & bu & Hu & Hin) (av & bv & Hv)%undetermined_lookup.
  exists av, bv. split; [done|]. by apply (Hsym u v au bu av bv).
Qed.

Lemma edgeSymmetric_mirror_back m u v :
  edgeSymmetric m → implicantsEdge m v u → undetermined m u → implicatesEdge m u v.
Proof.
  intros Hsym (av & bv & Hv & Hin) (au & bu & Hu)%undetermined_lookup.
  exists au, bu. split; [done|]. by apply (Hsym u v au bu av bv).
Qed.

Lemma implicatesPath_start m a l b : implicatesPath m a l b → undetermined m a.
Proof. destruct 1; by eapply implicatesEdge_undetermined. Qed.

Lemma private_undetermined_ok m s :
  undetermined m s → Exported s ≠ true → okSite m s.
Proof. intros Hu He. split; [|done]. by destruct (Exported s). Qed.

Section Selected.

Variable m : siteMap.
Variable st : marks.
Hypothesis Hinv : selInv m (reverse (keysOf m)) st.

(** An edge out of an exported site, or out of a site the forward
    traversal has seen, leads to a site it has seen. *)
Lemma forward_edge a n :
  implicatesEdge m a n →
  Exported a = true ∨ a ∈ toExport st ∪ reachableFromExported st →
  okSite m n → n ∈ toExport st ∪ reachableFromExported st.
Proof.
  intros Hedge Ha Hn.
  pose proof (implicatesEdge_undetermined _ _ _ Hedge) as Hua.
  apply implicatesEdge_of in Hedge.
  destruct (decide (Exported a = true)) as [He|He].
  - apply (si_fwd_roots _ _ _ Hinv a n); [|done..].
    by apply elem_of_keys, undetermined_dom.
  - destruct Ha as [?|Ha]; [done|].
    apply (hi_closed _ _ _ _ (si_fwd _ _ _ Hinv) a); [done| |done..].
    by apply private_undetermined_ok.
Qed.

(** Under edge symmetry, an edge into an exported site, or into a site the
    backward traversal has seen, comes from a site it has seen. *)
Lemma backward_edge a n :
  edgeSymmetric m →
  implicatesEdge m a n → undetermined m n →
  Exported n = true ∨ n ∈ toExport st ∪ reachesExported st →
  okSite m a → a ∈ toExport st ∪ reachesExported st.
Proof.
  intros Hsym Hedge Hun Hn Ha.
  apply (edgeSymmetric_mirror _ _ _ Hsym) in Hedge; [|done].
  apply implicantsEdge_of in Hedge.
  destruct (decide (Exported n = true)) as [He|He].
  - apply (si_bwd_roots _ _ _ Hinv n a); [|done..].
    by apply elem_of_keys, undetermined_dom.
  - destruct Hn as [?|Hn]; [done|].
    apply (hi_closed _ _ _ _ (si_bwd _ _ _ Hinv) n); [done| |done..].
    by apply private_undetermined_ok.
Qed.

Lemma forward_along a l b :
  implicatesPath m a l b →
  Exported a = true ∨ a ∈ toExport st ∪ reachableFromExported st →
  ∀ x, x ∈ l → Exported x = true ∨ x ∈ toExport st ∪ reachableFromExported st.
Proof.
  induction 1 as [a b Hedge Hb|a x l b Hedge Hpath IH]; intros Ha y Hy.
  - by apply elem_of_nil in Hy.
  - assert (Hx : Exported x = true ∨ x ∈ toExport st ∪ reachableFromExported st).
    { destruct (decide (Exported x = true)) as [?|Hp]; [by left|right].
      apply (forward_edge a x); [done..|].
      apply private_undetermined_ok; [|done]. by eapply implicatesPath_start. }
    apply elem_of_cons in Hy as [->|Hy]; [done|by apply IH].
Qed.

Lemma backward_along a l b :
  edgeSymmetric m →
  implicatesPath m a l b →
  Exported b = true ∨ b ∈ toExport st ∪ reachesExported st →
  (∀ x, x ∈ l → Exported x = true ∨ x ∈ toExport st ∪ reachesExported st) ∧
  (okSite m a → a ∈ toExport st ∪ reachesExported st).
Proof.
  intros Hsym.
  induction 1 as [a b Hedge Hb|a x l b Hedge Hpath IH]; intros Hgood.
  - split; [by intros y ?%elem_of_nil|]. by apply (backward_edge a b).
  - destruct (IH Hgood) as [IHl IHx].
    pose proof (implicatesPath_start _ _ _ _ Hpath) as Hux.
    assert (Hx : Exported x = true ∨ x ∈ toExport st ∪ reachesExported st).
    { destruct (decide (Exported x = true)) as [?|Hp]; [by left|right].
      by apply IHx, private_undetermined_ok. }
    split; [|by apply (backward_edge a x)].
    intros y [->|Hy]%elem_of_cons; [done|by apply IHl].
Qed.

(** Every intermediate site of a path is undetermined, hence a key. *)
Lemma implicatesPath_inner a l b :
  implicatesPath m a l b → ∀ x, x ∈ l → undetermined m x.
Proof.
  induction 1 as [a b Hedge Hb|a x l b Hedge Hpath IH]; intros y Hy.
  - by apply elem_of_nil in Hy.
  - apply elem_of_cons in Hy as [->|Hy]; [|by apply IH].
    by eapply implicatesPath_start.
Qed.

Lemma selected_exported s : s ∈ dom m → Exported s = true → s ∈ toExport st.
Proof. intros Hs He. apply (si_exported _ _ _ Hinv); [by apply elem_of_keys|done]. Qed.

Lemma selected_convex : edgeSymmetric m → convex m (toExport st).
Proof.
  intros Hsym a b l Ha Hb Hpath x Hx.
  pose proof (implicatesPath_inner _ _ _ Hpath x Hx) as Hux.
  destruct (decide (Exported x = true)) as [He|He].
  { apply selected_exported; [by apply undetermined_dom|done]. }
  destruct (forward_along _ _ _ Hpath (or_introl Ha) x Hx) as [?|Hf]; [done|].
  destruct (backward_along _ _ _ Hsym Hpath (or_introl Hb)) as [Hall _].
  destruct (Hall x Hx) as [?|Hbw]; [done|].
  pose proof (si_disjoint _ _ _ Hinv x). set_solver.
Qed.

End Selected.

Lemma reach_forward_path m z p :
  rtc (λ a b, b ∈ implicatesOf m a ∧ okSite m b) z p →
  ∀ l b, implicatesPath m p l b →
  ∃ l', implicatesPath m z l' b ∧ (p = z ∨ p ∈ l').
Proof.
  induction 1 as [z|z y p [Hzy Hy] Hrest IH]; intros l b Hpath.
  - exists l. split; [done|by left].
  - destruct (IH l b Hpath) as (l' & Hpath' & Hp).
    exists (y :: l'). split.
    + apply path_step; [by apply implicatesEdge_of|done].
    + right. destruct Hp as [->|Hp]; set_solver.
Qed.

Lemma reach_backward_path m z p :
  edgeSymmetric m →
  rtc (λ a b, b ∈ implicantsOf m a ∧ okSite m b) z p →
  ∀ l b, implicatesPath m z l b → ∃ l', implicatesPath m p l' b.
Proof.
  intros Hsym.
  induction 1 as [z|z y p [Hzy [_ Hy]] Hrest IH]; intros l b Hpath.
  - by exists l.
  - apply (IH (z :: l) b). apply path_step; [|done].
    apply edgeSymmetric_mirror_back; [done| |done]. by apply implicantsEdge_of.
Qed.

Section Minimal.

Variable m : siteMap.
Variable st : marks.
Hypothesis Hinv : selInv m (reverse (keysOf m)) st.
Hypothesis Hsym : edgeSymmetric m.

(** A private selected site is an intermediate site of a path between two
    exported sites. *)
Lemma selected_private_on_path p :
  p ∈ toExport st → Exported p = false →
  ∃ a b l, Exported a = true ∧ Exported b = true ∧
    implicatesPath m a l b ∧ p ∈ l.
Proof.
  intros Hp Hpriv.
  assert (Hok : okSite m p).
  { destruct (si_toExport _ _ _ Hinv p Hp) as [[? _]|?]; [congruence|done]. }
  destruct (hi_sound _ _ _ _ (si_fwd _ _ _ Hinv) p) as (a & z & Ha & Hz & Hokz & Hzp);
    [set_solver|done|].
  destruct (hi_sound _ _ _ _ (si_bwd _ _ _ Hinv) p) as (b & z' & Hb & Hz' & Hokz' & Hzp');
    [set_solver|done|].
  apply implicantsEdge_of in Hz'.
  assert (Hlast : implicatesPath m z' [] b).
  { apply path_edge; [|by eapply implicantsEdge_undetermined].
    apply edgeSymmetric_mirror_back; [done..|apply Hokz']. }
  destruct (reach_backward_path m z' p Hsym Hzp' [] b Hlast) as (l1 & Hpath1).
  destruct (reach_forward_path m z p Hzp l1 b Hpath1) as (l2 & Hpath2 & Hin).
  exists a, b, (z :: l2). repeat split; [done..| |].
  - apply path_step; [by apply implicatesEdge_of|done].
  - destruct Hin as [->|Hin]; set_solver.
Qed.

Lemma selected_minimal p :
  p ∈ toExport st → Exported p = false → ¬ convex m (toExport st ∖ {[p]}).
Proof.
  intros Hp Hpriv Hconvex.
  destruct (selected_private_on_path p Hp Hpriv) as (a & b & l & Ha & Hb & Hpath & Hin).
  specialize (Hconvex a b l Ha Hb Hpath p Hin). set_solver.
Qed.

End Minimal.

(** ** The selected set, independently of the iteration order

    Whatever the order of the iterations, the selected set is the one the
    graph alone determines: the exported keys, and the private sites that
    are reached both from an exported site and, backwards, from one. *)

Lemma reach_ok ok next z s : reach ok next z s → ok s.
Proof.
  intros [Hz Hr]. induction Hr as [|x y w [_ Hy] _ IH]; [done|by apply IH].
Qed.

Lemma halfInv_reach ok next te mine z s :
  halfInv ok next te mine →
  z ∈ te ∪ mine → reach ok next z s → s ∈ te ∪ mine.
Proof.
  intros [C _] Hz [Hok Hr]. induction Hr as [|x y w [Hy Hoky] _ IH]; [done|].
  apply IH; [|done]. by apply (C x).
Qed.

Lemma implicatesOf_dom m e z : z ∈ implicatesOf m e → e ∈ dom m.
Proof.
  intros Hz%implicatesEdge_of.
  by eapply undetermined_dom, implicatesEdge_undetermined.
Qed.

Lemma implicantsOf_dom m e z : z ∈ implicantsOf m e → e ∈ dom m.
Proof.
  intros Hz%implicantsEdge_of.
  by eapply undetermined_dom, implicantsEdge_undetermined.
Qed.

Lemma selected_iff m st s :
  selInv m (reverse (keysOf m)) st →
  s ∈ toExport st ↔
    (Exported s = true ∧ s ∈ dom m) ∨
    (Exported s = false ∧ reachedFromExported m s ∧ reachesAnExported m s).
Proof.
  intros Hinv. split.
  - intros Hs. destruct (si_toExport _ _ _ Hinv s Hs) as [?|Hok]; [by left|right].
    split; [apply Hok|]. split.
    + apply (hi_sound _ _ _ _ (si_fwd _ _ _ Hinv) s); [set_solver|done].
    + apply (hi_sound _ _ _ _ (si_bwd _ _ _ Hinv) s); [set_solver|done].
  - intros [[He Hin]|(Hp & (e & z & He & Hz & Hr) & (e' & z' & He' & Hz' & Hr'))].
    { by apply (selected_exported m st Hinv). }
    assert (Hf : s ∈ toExport st ∪ reachableFromExported st).
    { apply (halfInv_reach _ _ _ _ z s (si_fwd _ _ _ Hinv)); [|done].
      apply (si_fwd_roots _ _ _ Hinv e z); [|done|done|apply Hr].
      by eapply elem_of_keys, implicatesOf_dom. }
    assert (Hb : s ∈ toExport st ∪ reachesExported st).
    { apply (halfInv_reach _ _ _ _ z' s (si_bwd _ _ _ Hinv)); [|done].
      apply (si_bwd_roots _ _ _ Hinv e' z'); [|done|done|apply Hr'].
      by eapply elem_of_keys, implicantsOf_dom. }
    pose proof (si_disjoint _ _ _ Hinv s). set_solver.
Qed.

(** The selector on the heap. *)
Lemma chooseSitesToExport_inv order i h :
  ∃ st, chooseSitesToExport order i h = toExport st ∧
    selInv (deref h (mapping i))
      (reverse (keysOf (deref h (mapping i)))) st.
Proof.
  unfold chooseSitesToExport. cbv zeta.
  destruct (chooseSitesWithFuel_enough order (deref h (mapping i))
              (S (size (deref h (mapping i))))) as (st & Hst & Hinv); [lia|].
  exists st. by rewrite Hst.
Qed.

Lemma chooseSitesToExport_characterised order i h s :
  s ∈ chooseSitesToExport order i h ↔
    (Exported s = true ∧ s ∈ dom (deref h (mapping i))) ∨
    (Exported s = false ∧
     reachedFromExported (deref h (mapping i)) s ∧
     reachesAnExported (deref h (mapping i)) s).
Proof.
  destruct (chooseSitesToExport_inv order i h) as (st & -> & Hinv).
  by apply selected_iff.
Qed.

Lemma chooseSitesToExport_exported_only order i h s :
  s ∈ chooseSitesToExport order i h →
  (Exported s = true ∧ s ∈ dom (deref h (mapping i))) ∨
  okSite (deref h (mapping i)) s.
Proof.
  destruct (chooseSitesToExport_inv order i h) as (st & -> & Hinv).
  apply (si_toExport _ _ _ Hinv).
Qed.

(** ** The mutation API on the content of [i.mapping] *)

Lemma deref_mapStore l s v h : deref (mapStore l s v h) l = <[s := v]> (deref h l).
Proof. unfold mapStore, deref. by rewrite lookup_insert_eq. Qed.

Lemma lookup_mapStore_ne l l' s v (h : Heap) :
  l ≠ l' → mapStore l s v h !! l' = h !! l'.
Proof. intros. unfold mapStore. by rewrite lookup_insert_ne. Qed.

Lemma lookup_mapStore l s v (h : Heap) :
  mapStore l s v h !! l = Some (<[s := v]> (deref h l)).
Proof. unfold mapStore. by rewrite lookup_insert_eq. Qed.

Lemma deref_ensureUndetermined i h s :
  deref (ensureUndetermined i h s) (mapping i) = ensureContent (deref h (mapping i)) s.
Proof.
  unfold ensureUndetermined, ensureContent, mapLoad.
  destruct (deref h (mapping i) !! s); [done|]. by rewrite deref_mapStore.
Qed.

Lemma lookup_ensureUndetermined_ne i (h : Heap) s l :
  l ≠ mapping i → ensureUndetermined i h s !! l = h !! l.
Proof.
  intros. unfold ensureUndetermined. destruct (mapLoad _ _ _); [done|].
  by rewrite lookup_mapStore_ne.
Qed.

Lemma lookup_ensureContent m s s' :
  ensureContent m s !! s' =
    match m !! s' with
    | Some v => Some v
    | None => if decide (s = s') then Some (UndeterminedVal ∅ ∅) else None
    end.
Proof.
  unfold ensureContent. destruct (decide (s = s')) as [->|Hne].
  - destruct (m !! s') eqn:Hs; [done|]. by rewrite lookup_insert_eq.
  - destruct (m !! s) eqn:Hs; [by destruct (m !! s')|].
    rewrite lookup_insert_ne by done. by destruct (m !! s').
Qed.

Lemma StoreImplication_returns from to assertion i h :
  isDetermined (Load from i h) = false →
  isDetermined (Load to i h) = false →
  ∃ h', StoreImplication from to assertion i h = Returned h' ∧
    h' !! mapping i =
      Some (withImplication from to assertion (deref h (mapping i))) ∧
    ∀ l, l ≠ mapping i → h' !! l = h !! l.
Proof.
  unfold Load, mapLoad, StoreImplication, withImplication. intros Hf Ht.
  cbn [foldl].
  set (h1 := ensureUndetermined i (ensureUndetermined i h from) to).
  assert (H1 : deref h1 (mapping i) = ensureContent (ensureContent (deref h (mapping i)) from) to).
  { subst h1. by rewrite !deref_ensureUndetermined. }
  assert (H1' : ∀ l, l ≠ mapping i → h1 !! l = h !! l).
  { intros l Hl. subst h1. by rewrite !lookup_ensureUndetermined_ne. }
  clearbody h1. unfold mapLoad. 
  set (m := deref h (mapping i)) in *.
  set (m1 := deref h1 (mapping i)) in *.
  assert (Hm1f : m1 !! from = Some (UndeterminedVal (implicatesAt m from) (implicantsAt m from))).
  { rewrite H1, !lookup_ensureContent. unfold implicatesAt, implicantsAt.
    destruct (m !! from) as [[?|??]|]; simpl in *; [done..|]. by rewrite decide_True by done. }
  rewrite Hm1f. rewrite deref_mapStore. fold m1.
  set (Y := UndeterminedVal (addSiteWithAssertion to assertion (implicatesAt m from)) (implicantsAt m from)).
  assert (Hm2t : <[from := Y]> m1 !! to = Some (UndeterminedVal (implicatesAt (<[from := Y]> m) to) (implicantsAt (<[from := Y]> m) to))).
  { unfold implicatesAt, implicantsAt. destruct (decide (from = to)) as [->|Hd].
    - by rewrite !lookup_insert_eq.
    - rewrite !lookup_insert_ne by done. rewrite H1, !lookup_ensureContent.
      destruct (m !! to) as [[?|??]|]; simpl in *; [done..|].
      rewrite decide_False by done. by rewrite decide_True by done. }
  rewrite Hm2t. eexists. split; [done|].
  split; [|intros l Hl; by rewrite !lookup_mapStore_ne, H1'].
  rewrite lookup_mapStore, deref_mapStore. fold m1. f_equal.
  apply map_eq. intros s.
  destruct (decide (s = to)) as [->|?]; [by rewrite !lookup_insert_eq|].
  rewrite !(lookup_insert_ne _ to) by done.
  destruct (decide (s = from)) as [->|?]; [by rewrite !lookup_insert_eq|].
  rewrite !lookup_insert_ne by done. rewrite H1, !lookup_ensureContent.
  destruct (m !! s); [done|]. by rewrite !decide_False by done.
Qed.

Lemma StoreImplication_panics from to assertion i h :
  isDetermined (Load from i h) = true ∨ isDetermined (Load to i h) = true →
  ∃ h', StoreImplication from to assertion i h = Panicked h'.
Proof.
  unfold Load, mapLoad, StoreImplication. intros Hdet. cbn [foldl].
  set (h1 := ensureUndetermined i (ensureUndetermined i h from) to).
  assert (H1 : deref h1 (mapping i) =
                 ensureContent (ensureContent (deref h (mapping i)) from) to).
  { subst h1. by rewrite !deref_ensureUndetermined. }
  clearbody h1. unfold mapLoad.
  set (m := deref h (mapping i)) in *.
  set (m1 := deref h1 (mapping i)) in *.
  assert (Hkeep : ∀ s, isDetermined (m !! s) = true → m1 !! s = m !! s).
  { intros s Hs. rewrite H1, !lookup_ensureContent.
    by destruct (m !! s) as [[?|??]|]. }
  destruct (m1 !! from) as [[?|a b]|] eqn:Hm1f; [by eexists| |by eexists].
  rewrite deref_mapStore. fold m1.
  destruct Hdet as [Hf|Ht].
  { rewrite <- (Hkeep from Hf), Hm1f in Hf. done. }
  assert (from ≠ to) as Hd.
  { intros ->. rewrite <- (Hkeep to Ht), Hm1f in Ht. done. }
  rewrite lookup_insert_ne, (Hkeep to Ht) by done.
  destruct (m !! to) as [[?|??]|]; [by eexists|done..].
Qed.

(** ** Edge symmetry along the mutation API *)

Lemma edgesMirrored_empty : edgesMirrored ∅.
Proof. intros u v _ _. unfold implicatesAt, implicantsAt. by rewrite !lookup_empty. Qed.

Lemma edgesMirrored_triggers m : edgesMirrored m → triggerSymmetric m.
Proof.
  intros Hm u v au bu av bv Hu Hv.
  specialize (Hm u v). unfold implicatesAt, implicantsAt in Hm.
  rewrite Hu, Hv in Hm. by apply Hm.
Qed.

Lemma triggerSymmetric_edges m : triggerSymmetric m → edgeSymmetric m.
Proof.
  intros Hm u v au bu av bv Hu Hv.
  rewrite !elem_of_dom. by rewrite (Hm u v au bu av bv Hu Hv).
Qed.

Lemma lookup_addSiteWithAssertion site assertion (s : sitesWithAssertions) site' :
  addSiteWithAssertion site assertion s !! site' =
    if decide (site = site') then Some ({[assertion]} ∪ default ∅ (s !! site))
    else s !! site'.
Proof. unfold addSiteWithAssertion. apply lookup_insert. Qed.

Lemma edgesMirrored_StoreDetermined m site value :
  edgesMirrored m → edgesMirrored (<[site := DeterminedVal value]> m).
Proof.
  intros Hm u v Hu Hv.
  assert (site ≠ u) by (intros ->; by rewrite lookup_insert_eq in Hu).
  assert (site ≠ v) by (intros ->; by rewrite lookup_insert_eq in Hv).
  rewrite lookup_insert_ne in Hu, Hv by done.
  unfold implicatesAt, implicantsAt. rewrite !lookup_insert_ne by done.
  by apply Hm.
Qed.

Lemma implicatesAt_withImplication from to assertion m s :
  implicatesAt (withImplication from to assertion m) s =
    if decide (s = from)
    then addSiteWithAssertion to assertion (implicatesAt m from)
    else implicatesAt m s.
Proof.
  unfold withImplication. cbv zeta. unfold implicatesAt at 1.
  destruct (decide (s = to)) as [->|Hto].
  - rewrite lookup_insert_eq. unfold implicatesAt at 1.
    destruct (decide (to = from)) as [->|Hd]; [by rewrite lookup_insert_eq|].
    by rewrite lookup_insert_ne.
  - rewrite lookup_insert_ne by done.
    destruct (decide (s = from)) as [->|Hd]; [by rewrite lookup_insert_eq|].
    by rewrite lookup_insert_ne.
Qed.

Lemma implicantsAt_withImplication from to assertion m s :
  implicantsAt (withImplication from to assertion m) s =
    if decide (s = to)
    then addSiteWithAssertion from assertion (implicantsAt m to)
    else implicantsAt m s.
Proof.
  unfold withImplication. cbv zeta. unfold implicantsAt at 1.
  destruct (decide (s = to)) as [->|Hto].
  - rewrite lookup_insert_eq. f_equal. unfold implicantsAt.
    destruct (decide (from = to)) as [->|Hd]; [by rewrite lookup_insert_eq|].
    by rewrite lookup_insert_ne.
  - rewrite lookup_insert_ne by done.
    destruct (decide (s = from)) as [->|Hd]; [by rewrite lookup_insert_eq|].
    by rewrite lookup_insert_ne.
Qed.

Lemma isDetermined_withImplication from to assertion m s :
  isDetermined (withImplication from to assertion m !! s) =
    if decide (s = from ∨ s = to) then false else isDetermined (m !! s).
Proof.
  unfold withImplication. cbv zeta.
  destruct (decide (s = to)) as [->|Hto].
  { rewrite lookup_insert_eq. rewrite decide_True by auto. done. }
  rewrite lookup_insert_ne by done.
  destruct (decide (s = from)) as [->|Hd].
  { rewrite lookup_insert_eq. rewrite decide_True by auto. done. }
  rewrite lookup_insert_ne by done. rewrite decide_False by tauto. done.
Qed.

Lemma edgesMirrored_withImplication from to assertion m :
  isDetermined (m !! from) = false → isDetermined (m !! to) = false →
  edgesMirrored m → edgesMirrored (withImplication from to assertion m).
Proof.
  intros Hf Ht Hm u v Hu Hv.
  rewrite isDetermined_withImplication in Hu, Hv.
  assert (Hu' : isDetermined (m !! u) = false).
  { destruct (decide (u = from ∨ u = to)) as [[->| ->]|?]; done. }
  assert (Hv' : isDetermined (m !! v) = false).
  { destruct (decide (v = from ∨ v = to)) as [[->| ->]|?]; done. }
  rewrite implicatesAt_withImplication, implicantsAt_withImplication.
  destruct (decide (u = from)) as [->|Hnu], (decide (v = to)) as [->|Hnv];
    rewrite ?lookup_addSiteWithAssertion.
  - rewrite !decide_True by done. by rewrite (Hm from to).
  - rewrite decide_False by done. by apply Hm.
  - rewrite decide_False by done. by apply Hm.
  - by apply Hm.
Qed.

Lemma runMutations_mirrored i cs : ∀ h h',
  runMutations i cs h = Returned h' →
  edgesMirrored (deref h (mapping i)) → edgesMirrored (deref h' (mapping i)).
Proof.
  induction cs as [|c cs IH]; intros h h' Hrun Hm.
  - simpl in Hrun. by injection Hrun as <-.
  - simpl in Hrun. destruct c as [site value|from to assertion]; simpl in Hrun.
    + apply (IH _ _ Hrun). unfold StoreDetermined. rewrite deref_mapStore.
      by apply edgesMirrored_StoreDetermined.
    + destruct (isDetermined (Load from i h)) eqn:Hf.
      { destruct (StoreImplication_panics from to assertion i h) as [h1 Hp]; [by left|].
        by rewrite Hp in Hrun. }
      destruct (isDetermined (Load to i h)) eqn:Ht.
      { destruct (StoreImplication_panics from to assertion i h) as [h1 Hp]; [by right|].
        by rewrite Hp in Hrun. }
      destruct (StoreImplication_returns from to assertion i h Hf Ht)
        as (h1 & Hr & Hh1 & _).
      rewrite Hr in Hrun. apply (IH _ _ Hrun).
      unfold deref at 1. rewrite Hh1. simpl.
      by apply edgesMirrored_withImplication.
Qed.

Lemma runMutations_symmetric i cs h h' :
  deref h (mapping i) = ∅ →
  runMutations i cs h = Returned h' →
  triggerSymmetric (deref h' (mapping i)) ∧ edgeSymmetric (deref h' (mapping i)).
Proof.
  intros Hempty Hrun.
  assert (Hm : edgesMirrored (deref h' (mapping i))).
  { apply (runMutations_mirrored i cs h h' Hrun). rewrite Hempty.
    apply edgesMirrored_empty. }
  split; [|apply triggerSymmetric_edges]; by apply edgesMirrored_triggers.
Qed.

(** Closed, decidable goals are settled by evaluation. *)
Ltac by_computation := apply (bool_decide_unpack _); vm_compute; exact I.

(** ** Claims on the mutation API *)

(** C4, as stated, fails: after [StoreImplication E1 P1] and then
    [StoreDetermined P1], the site P1 is still recorded under
    [E1.Implicates] while the determined P1 has no [Implicants] at all. *)
Lemma edge_symmetry_broken_by_overwrite :
  runMutations i0 callsOverwrite h0 = Returned hOverwrite ∧
  implicatesEdge (deref hOverwrite (mapping i0)) E1 P1 ∧
  ¬ implicantsEdge (deref hOverwrite (mapping i0)) P1 E1.
Proof.
  split; [by_computation|]. split.
  - apply implicatesEdge_of. by_computation.
  - rewrite implicantsEdge_of. by_computation.
Qed.

(** C4 (amended): for every map produced from the empty map by a sequence
    of [StoreDetermined] and [StoreImplication] calls that returns, and
    for all sites [u], [v] that are both undetermined in it, [v] is in
    [u.Implicates] iff [u] is in [v.Implicants], and the triggers recorded
    on the two sides are equal. *)
Theorem edge_symmetry_between_undetermined i cs h h' :
  deref h (mapping i) = ∅ →
  runMutations i cs h = Returned h' →
  ∀ u v au bu av bv,
    deref h' (mapping i) !! u = Some (UndeterminedVal au bu) →
    deref h' (mapping i) !! v = Some (UndeterminedVal av bv) →
    (v ∈ dom au ↔ u ∈ dom bv) ∧ au !! v = bv !! u.
Proof.
  intros Hempty Hrun u v au bu av bv Hu Hv.
  destruct (runMutations_symmetric i cs h h' Hempty Hrun) as [Ht He].
  split; [by apply (He u v au bu av bv)|by apply (Ht u v au bu av bv)].
Qed.

Lemma edge_symmetry_between_undetermined_witness :
  (P2 ∈ dom (implicatesAt (deref hS3 (mapping i0)) P1) ↔
   P1 ∈ dom (implicantsAt (deref hS3 (mapping i0)) P2)) ∧
  implicatesAt (deref hS3 (mapping i0)) P1 !! P2 =
  implicantsAt (deref hS3 (mapping i0)) P2 !! P1.
Proof.
  apply (edge_symmetry_between_undetermined i0 callsS3 h0 hS3
           eq_refl eq_refl P1 P2 _ (implicantsAt (deref hS3 (mapping i0)) P1)
           (implicatesAt (deref hS3 (mapping i0)) P2));
    by_computation.
Defined.

(** The edge sets after a returning [StoreImplication]. *)
Lemma StoreImplication_edges from to assertion i h h' :
  StoreImplication from to assertion i h = Returned h' →
  isDetermined (Load from i h) = false ∧ isDetermined (Load to i h) = false ∧
  h' !! mapping i = Some (withImplication from to assertion (deref h (mapping i))) ∧
  (∀ l, l ≠ mapping i → h' !! l = h !! l).
Proof.
  intros Hr.
  destruct (isDetermined (Load from i h)) eqn:Hf.
  { destruct (StoreImplication_panics from to assertion i h) as [h1 Hp]; [by left|].
    by rewrite Hp in Hr. }
  destruct (isDetermined (Load to i h)) eqn:Ht.
  { destruct (StoreImplication_panics from to assertion i h) as [h1 Hp]; [by right|].
    by rewrite Hp in Hr. }
  destruct (StoreImplication_returns from to assertion i h Hf Ht) as (h1 & Hr1 & Hl & Ho).
  rewrite Hr1 in Hr. injection Hr as <-. done.
Qed.

Lemma lookup_withImplication from to assertion m s :
  withImplication from to assertion m !! s =
    if decide (s = from ∨ s = to)
    then Some (UndeterminedVal
                 (implicatesAt (withImplication from to assertion m) s)
                 (implicantsAt (withImplication from to assertion m) s))
    else m !! s.
Proof.
  unfold implicatesAt, implicantsAt. unfold withImplication. cbv zeta.
  destruct (decide (s = to)) as [->|Hto].
  { rewrite lookup_insert_eq. by rewrite decide_True by auto. }
  rewrite lookup_insert_ne by done.
  destruct (decide (s = from)) as [->|Hd].
  { rewrite lookup_insert_eq. by rewrite decide_True by auto. }
  rewrite lookup_insert_ne by done. by rewrite decide_False by tauto.
Qed.

Lemma addSiteWithAssertion_idemp site assertion (s : sitesWithAssertions) :
  addSiteWithAssertion site assertion (addSiteWithAssertion site assertion s) =
  addSiteWithAssertion site assertion s.
Proof.
  unfold addSiteWithAssertion. rewrite lookup_insert_eq, insert_insert_eq. simpl.
  f_equal. set_solver.
Qed.

Lemma withImplication_idemp from to assertion m :
  withImplication from to assertion (withImplication from to assertion m) =
  withImplication from to assertion m.
Proof.
  set (w := withImplication from to assertion m).
  assert (Ha : ∀ s, implicatesAt (withImplication from to assertion w) s = implicatesAt w s).
  { intros s. rewrite implicatesAt_withImplication. case_decide as Hs; [subst s|done].
    unfold w. rewrite implicatesAt_withImplication, decide_True by done.
    apply addSiteWithAssertion_idemp. }
  assert (Hb : ∀ s, implicantsAt (withImplication from to assertion w) s = implicantsAt w s).
  { intros s. rewrite implicantsAt_withImplication. case_decide as Hs; [subst s|done].
    unfold w. rewrite implicantsAt_withImplication, decide_True by done.
    apply addSiteWithAssertion_idemp. }
  apply map_eq. intros s. rewrite lookup_withImplication, Ha, Hb.
  case_decide as Hs; [|done].
  unfold w at 3. rewrite lookup_withImplication. fold w. by rewrite decide_True.
Qed.

(** C9, as stated, fails: with a determined [from] the call panics, and
    with a determined [to] it panics after having recorded the edge under
    [from.Implicates] only. *)
Lemma store_implication_on_determined_panics :
  (isDetermined (Load P1 i0 hOverwrite) = true ∧
   panicked (StoreImplication P1 E2 t1 i0 hOverwrite) = true) ∧
  (panicked (StoreImplication P2 P1 t1 i0 hOverwrite) = true ∧
   P1 ∈ implicatesOf
          (deref (heapOf (StoreImplication P2 P1 t1 i0 hOverwrite)) (mapping i0)) P2).
Proof. repeat split; by_computation. Qed.

(** C9 (amended): [StoreImplication] panics exactly when [from] or [to] is
    present as a determined value, so the edge is never dropped silently;
    when it returns, the edge is recorded under [from.Implicates] and
    under [to.Implicants], with the assertion among its triggers. *)
Theorem store_implication_panics_iff_determined from to assertion i h :
  (panicked (StoreImplication from to assertion i h) = true ↔
   isDetermined (Load from i h) = true ∨ isDetermined (Load to i h) = true) ∧
  (∀ h', StoreImplication from to assertion i h = Returned h' →
     ∃ ts ts',
       implicatesAt (deref h' (mapping i)) from !! to = Some ts ∧
       implicantsAt (deref h' (mapping i)) to !! from = Some ts' ∧
       assertion ∈ ts ∧ assertion ∈ ts').
Proof.
  split.
  - split.
    + intros Hp. destruct (isDetermined (Load from i h)) eqn:Hf; [by left|].
      destruct (isDetermined (Load to i h)) eqn:Ht; [by right|].
      destruct (StoreImplication_returns from to assertion i h Hf Ht) as (h1 & Hr & _).
      by rewrite Hr in Hp.
    + intros Hd. destruct (StoreImplication_panics from to assertion i h Hd) as [h1 Hp].
      by rewrite Hp.
  - intros h' Hr.
    destruct (StoreImplication_edges _ _ _ _ _ _ Hr) as (_ & _ & Hl & _).
    unfold deref. rewrite Hl. simpl.
    rewrite implicatesAt_withImplication, implicantsAt_withImplication.
    rewrite !decide_True, !lookup_addSiteWithAssertion, !decide_True by done.
    eexists _, _. repeat split; set_solver.
Qed.

(** C8: a second [StoreImplication] with the same triple leaves the heap
    as the first one left it; on an empty map the first call records one
    neighbour [v] under [u.Implicates] and one neighbour [u] under
    [v.Implicants], each with the single trigger [t]. *)
Theorem store_implication_idempotent u v t i h h1 :
  StoreImplication u v t i h = Returned h1 →
  StoreImplication u v t i h1 = Returned h1 ∧
  (deref h (mapping i) = ∅ →
     implicatesAt (deref h1 (mapping i)) u = {[v := {[t]}]} ∧
     implicantsAt (deref h1 (mapping i)) v = {[u := {[t]}]}).
Proof.
  intros Hr.
  destruct (StoreImplication_edges _ _ _ _ _ _ Hr) as (_ & _ & Hl & Ho).
  assert (Hd1 : deref h1 (mapping i) = withImplication u v t (deref h (mapping i))).
  { unfold deref at 1. by rewrite Hl. }
  split.
  - destruct (StoreImplication_returns u v t i h1) as (h2 & Hr2 & Hl2 & Ho2).
    { unfold Load, mapLoad. rewrite Hd1, isDetermined_withImplication.
      by rewrite decide_True by auto. }
    { unfold Load, mapLoad. rewrite Hd1, isDetermined_withImplication.
      by rewrite decide_True by auto. }
    rewrite Hr2. f_equal. apply map_eq. intros l.
    destruct (decide (l = mapping i)) as [->|Hne]; [|by apply Ho2].
    by rewrite Hl2, Hl, Hd1, withImplication_idemp.
  - intros Hempty. rewrite Hd1, Hempty.
    rewrite implicatesAt_withImplication, implicantsAt_withImplication.
    rewrite !decide_True by done.
    unfold implicatesAt, implicantsAt, addSiteWithAssertion.
    rewrite !lookup_empty. simpl. rewrite !insert_empty.
    by rewrite (right_id_L ∅ (∪)).
Qed.

Lemma store_implication_idempotent_witness :
  StoreImplication E1 P1 t1 i0 (heapOf (StoreImplication E1 P1 t1 i0 h0)) =
    Returned (heapOf (StoreImplication E1 P1 t1 i0 h0)) ∧
  implicatesAt (deref (heapOf (StoreImplication E1 P1 t1 i0 h0)) (mapping i0)) E1
    = {[P1 := {[t1]}]} ∧
  implicantsAt (deref (heapOf (StoreImplication E1 P1 t1 i0 h0)) (mapping i0)) P1
    = {[E1 := {[t1]}]}.
Proof.
  destruct (store_implication_idempotent E1 P1 t1 i0 h0
              (heapOf (StoreImplication E1 P1 t1 i0 h0))) as [Hagain Hfresh].
  - by_computation.
  - split; [exact Hagain|]. apply Hfresh. by_computation.
Defined.

(** ** Claims on the serializer *)

Lemma bytesToPositive_positiveToBytes p : bytesToPositive (positiveToBytes p) = Some p.
Proof. induction p as [p IH|p IH|]; simpl; by rewrite ?IH. Qed.

Lemma scenario_codec_round_trip m buf :
  scenarioEncode m = (buf, None) → scenarioDecode buf = (m, None).
Proof.
  unfold scenarioEncode, scenarioDecode. intros [= <-].
  rewrite bytesToPositive_positiveToBytes. simpl. by rewrite decode_encode.
Qed.

Section GobRoundTrip.

Variable gobEncode : siteMap → list Byte.byte * option string.
Variable gobDecode : list Byte.byte → siteMap * option string.

(** The contract of the gob library on the maps it can encode: decoding
    what the encoder wrote gives back the entries. *)
Hypothesis gob_round_trip : ∀ m buf,
  gobEncode m = (buf, None) → gobDecode buf = (m, None).

Lemma GobEncode_ok i h buf :
  GobEncode gobEncode i h = (buf, None) →
  gobEncode (deref h (mapping i)) = (buf, None).
Proof.
  unfold GobEncode. destruct (gobEncode _) as [b [e|]]; [done|]. by intros [= ->].
Qed.

Lemma GobDecode_GobEncode i h buf j hj :
  GobEncode gobEncode i h = (buf, None) →
  ∃ i' h', GobDecode gobDecode buf j hj = (i', h', None) ∧
    deref h' (mapping i') = deref h (mapping i) ∧
    deref h' (upstreamMapping i') = ∅ ∧
    upstreamMapping i' ≠ mapping i' ∧
    (upstreamMapping i' ∉ dom hj) ∧ (mapping i' ∉ dom hj).
Proof.
  intros Henc%GobEncode_ok%gob_round_trip.
  unfold GobDecode, make. cbv zeta. cbn [mapping upstreamMapping].
  rewrite Henc.
  set (mp := fresh (dom hj)).
  set (up := fresh (dom (<[mp := ∅]> hj))).
  assert (Hmp : mp ∉ dom hj) by apply is_fresh.
  assert (Hup : up ∉ dom (<[mp := ∅]> hj)) by apply is_fresh.
  rewrite dom_insert_L in Hup.
  assert (up ≠ mp) by set_solver.
  eexists _, _. split; [done|]. cbn [mapping upstreamMapping].
  unfold deref. repeat split.
  - rewrite lookup_insert_eq, lookup_insert_ne, lookup_insert_eq by done.
    simpl. by rewrite (right_id_L ∅ (∪)).
  - by rewrite lookup_insert_ne, lookup_insert_eq by done.
  - done.
  - set_solver.
  - done.
Qed.

(** C5: when [GobEncode] succeeds on a map, [GobDecode] of its bytes,
    whatever the receiver held before, succeeds and leaves a receiver
    whose [mapping] has exactly the encoded entries (same sites, same
    variants and explanations, same edges with their triggers) and whose
    [upstreamMapping] is a separate, freshly allocated, empty map. *)
Theorem gob_encode_decode_round_trip i h buf j hj :
  GobEncode gobEncode i h = (buf, None) →
  ∃ i' h', GobDecode gobDecode buf j hj = (i', h', None) ∧
    deref h' (mapping i') = deref h (mapping i) ∧
    deref h' (upstreamMapping i') = ∅ ∧
    upstreamMapping i' ≠ mapping i' ∧
    (upstreamMapping i' ∉ dom hj) ∧ (mapping i' ∉ dom hj).
Proof. apply GobDecode_GobEncode. Qed.

(** C7: after [StoreImplication u v t1] and [StoreImplication u v t2] the
    edge carries both triggers under [u.Implicates] and under
    [v.Implicants], and so does the map decoded from the encoded one. *)
Theorem edge_keeps_both_triggers u v ta tb i h h1 h2 :
  StoreImplication u v ta i h = Returned h1 →
  StoreImplication u v tb i h1 = Returned h2 →
  (∃ ts ts',
     implicatesAt (deref h2 (mapping i)) u !! v = Some ts ∧
     implicantsAt (deref h2 (mapping i)) v !! u = Some ts' ∧
     {[ta; tb]} ⊆ ts ∧ {[ta; tb]} ⊆ ts') ∧
  (∀ buf j hj, GobEncode gobEncode i h2 = (buf, None) →
     ∃ i' h' ts ts', GobDecode gobDecode buf j hj = (i', h', None) ∧
       implicatesAt (deref h' (mapping i')) u !! v = Some ts ∧
       implicantsAt (deref h' (mapping i')) v !! u = Some ts' ∧
       {[ta; tb]} ⊆ ts ∧ {[ta; tb]} ⊆ ts').
Proof.
  intros Hr1 Hr2.
  destruct (StoreImplication_edges _ _ _ _ _ _ Hr1) as (_ & _ & Hl1 & _).
  destruct (StoreImplication_edges _ _ _ _ _ _ Hr2) as (_ & _ & Hl2 & _).
  assert (Hboth : ∃ ts ts',
     implicatesAt (deref h2 (mapping i)) u !! v = Some ts ∧
     implicantsAt (deref h2 (mapping i)) v !! u = Some ts' ∧
     {[ta; tb]} ⊆ ts ∧ {[ta; tb]} ⊆ ts').
  { unfold deref at 1 2. rewrite Hl2. simpl. unfold deref. rewrite Hl1. simpl.
    rewrite !implicatesAt_withImplication, !implicantsAt_withImplication.
    rewrite !decide_True, !lookup_addSiteWithAssertion, !decide_True by done.
    simpl. eexists _, _. repeat split; set_solver. }
  split; [done|]. intros buf j hj Henc.
  destruct (GobDecode_GobEncode i h2 buf j hj Henc) as (i' & h' & Hdec & Hm & _).
  destruct Hboth as (ts & ts' & ?). exists i', h', ts, ts'. by rewrite Hm.
Qed.

End GobRoundTrip.

Lemma gob_encode_decode_round_trip_witness :
  ∃ i' h',
    GobDecode scenarioDecode (GobEncode scenarioEncode i0 hS3).1 i0 h0 = (i', h', None) ∧
    deref h' (mapping i') = deref hS3 (mapping i0) ∧
    deref h' (upstreamMapping i') = ∅ ∧
    upstreamMapping i' ≠ mapping i' ∧
    (upstreamMapping i' ∉ dom h0) ∧ (mapping i' ∉ dom h0).
Proof.
  apply (gob_encode_decode_round_trip scenarioEncode scenarioDecode
           scenario_codec_round_trip i0 hS3).
  reflexivity.
Defined.

Lemma edge_keeps_both_triggers_witness :
  (∃ ts ts',
     implicatesAt (deref hS6 (mapping i0)) E1 !! P1 = Some ts ∧
     implicantsAt (deref hS6 (mapping i0)) P1 !! E1 = Some ts' ∧
     {[t1; t2]} ⊆ ts ∧ {[t1; t2]} ⊆ ts') ∧
  (∃ i' h' ts ts',
     GobDecode scenarioDecode (GobEncode scenarioEncode i0 hS6).1 i0 h0
       = (i', h', None) ∧
     implicatesAt (deref h' (mapping i')) E1 !! P1 = Some ts ∧
     implicantsAt (deref h' (mapping i')) P1 !! E1 = Some ts' ∧
     {[t1; t2]} ⊆ ts ∧ {[t1; t2]} ⊆ ts').
Proof.
  destruct (edge_keeps_both_triggers scenarioEncode scenarioDecode
              scenario_codec_round_trip E1 P1 t1 t2 i0 h0
              (heapOf (StoreImplication E1 P1 t1 i0 h0)) hS6) as [Hlive Hwire].
  - by_computation.
  - by_computation.
  - split; [exact Hlive|]. apply Hwire. reflexivity.
Defined.

(** ** Claims on the annotation facade *)

Lemma checkAnnotationKey_sound keyExported key i h :
  querySound keyExported key i h (checkAnnotationKey keyExported key i h).
Proof.
  unfold querySound, checkAnnotationKey, Load. cbv zeta.
  destruct (mapLoad h (mapping i) (newPrimitiveSite keyExported key false))
    as [[sb|??]|];
  destruct (mapLoad h (mapping i) (newPrimitiveSite keyExported key true))
    as [[db|??]|];
  simpl; (split; [split; [done|by intros [??]]|]); (split; [done|]);
  intros Hok; try done.
  by exists sb, db.
Qed.

(** C6: each [Check*] method answers [ok = true] exactly when the shallow
    and the deep site of the entity are both present and determined in
    [mapping]; otherwise it answers [EmptyVal] with [ok = false]; with
    [ok = true] the answer carries the two verdicts and both set bits. *)
Theorem check_methods_sound keyExported i h :
  (∀ fld, querySound keyExported (FieldAnnotationKey fld) i h
            (CheckFieldAnn keyExported fld i h)) ∧
  (∀ fdecl num, querySound keyExported (ParamAnnotationKey fdecl num) i h
                  (CheckFuncParamAnn keyExported fdecl num i h)) ∧
  (∀ fdecl num, querySound keyExported (RetAnnotationKey fdecl num) i h
                  (CheckFuncRetAnn keyExported fdecl num i h)) ∧
  (∀ fdecl, querySound keyExported (RecvAnnotationKey fdecl) i h
              (CheckFuncRecvAnn keyExported fdecl i h)) ∧
  (∀ name, querySound keyExported (TypeNameAnnotationKey name) i h
             (CheckDeepTypeAnn keyExported name i h)) ∧
  (∀ v, querySound keyExported (GlobalVarAnnotationKey v) i h
          (CheckGlobalVarAnn keyExported v i h)).
Proof.
  split; [|split; [|split; [|split; [|split]]]];
    intros; apply checkAnnotationKey_sound.
Qed.

(** Scenario S1: the query answers both verdicts once both sites are
    determined, and the empty answer while only one is. *)
Example trivial_determination :
  CheckGlobalVarAnn (λ _, true) "A" i0 hS1
    = (MkAnnotationVal true false true true, true)
  ∧ CheckGlobalVarAnn (λ _, true) "A" i0
      (StoreDetermined shallowA (MkExplainedBool true "nil literal") i0 h0)
    = (EmptyVal, false).
Proof. split; by_computation. Qed.

(** ** Export *)

Lemma deref_make_other (h : Heap) l :
  l ∈ dom h → deref (make h).2 l = deref h l.
Proof.
  intros Hl. unfold make, deref. simpl. rewrite lookup_insert_ne; [done|].
  intros <-. by apply (is_fresh (dom h)).
Qed.

Lemma deref_nonempty_allocated (h : Heap) l : deref h l ≠ ∅ → l ∈ dom h.
Proof.
  unfold deref. intros Hne. apply elem_of_dom.
  destruct (h !! l); [done|]. by destruct Hne.
Qed.

Lemma deref_make_fresh (h : Heap) : deref (make h).2 (make h).1 = ∅.
Proof. unfold make, deref. simpl. by rewrite lookup_insert_eq. Qed.

(** The loop of [Export] writes to the map under construction only. *)
Lemma exportSite_frame i S exported (h : Heap) e l :
  l ≠ exported → exportSite i S exported h e !! l = h !! l.
Proof.
  intros Hl. unfold exportSite. destruct e as [site val].
  destruct (negb _); [done|].
  destruct (mapLoad _ _ _) as [up|]; [|by rewrite lookup_mapStore_ne].
  destruct (inferredValDiff val up) as [[d|] [|]]; try done.
  by rewrite lookup_mapStore_ne.
Qed.

Lemma exportSite_dom i S exported (h : Heap) e :
  exported ∈ dom h → exported ∈ dom (exportSite i S exported h e).
Proof.
  intros Hl. unfold exportSite. destruct e as [site val].
  assert (∀ s v, exported ∈ dom (mapStore exported s v h)).
  { intros. unfold mapStore. rewrite dom_insert_L. set_solver. }
  destruct (negb _); [done|].
  destruct (mapLoad _ _ _) as [up|]; [|done].
  by destruct (inferredValDiff val up) as [[d|] [|]].
Qed.

Lemma export_loop_frame i S exported es : ∀ (h : Heap),
  exported ∈ dom h →
  exported ∈ dom (foldl (exportSite i S exported) h es) ∧
  ∀ l, l ≠ exported → foldl (exportSite i S exported) h es !! l = h !! l.
Proof.
  induction es as [|e es IH]; intros h Hin; [done|]. simpl.
  destruct (IH (exportSite i S exported h e)) as [Hd Hf];
    [by apply exportSite_dom|].
  split; [done|]. intros l Hl. rewrite Hf by done. by apply exportSite_frame.
Qed.

Lemma export_loop_idle i S exported es (h : Heap) :
  (∀ e, e ∈ es → exportSite i S exported h e = h) →
  foldl (exportSite i S exported) h es = h.
Proof.
  induction es as [|e es IH]; intros Hes; [done|]. simpl.
  rewrite (Hes e) by set_solver. apply IH. intros e' He'. apply Hes. set_solver.
Qed.

(** When no iteration of the loop stores anything, nothing is emitted. *)
Lemma Export_idle order i pass h :
  (∀ e, e ∈ map_to_list (deref (make h).2 (mapping i)) →
     exportSite i (chooseSitesToExport order i (make h).2) (make h).1 (make h).2 e
       = (make h).2) →
  (Export order i pass h).1 = pass.
Proof.
  intros Hidle. unfold Export. case_decide as Hsz; [done|].
  destruct (make h) as [exported h1] eqn:Hmk. simpl in Hidle.
  rewrite export_loop_idle.
  2:{ intros e He%elem_of_rangeList. by apply Hidle. }
  assert (deref h1 exported = ∅) as ->.
  { pose proof (deref_make_fresh h) as Hf. by rewrite Hmk in Hf. }
  rewrite map_size_empty. by rewrite decide_False by lia.
Qed.

Lemma edgesDiff_same (a : sitesWithAssertions) : edgesDiff a a = ∅.
Proof.
  apply map_eq. intros s. unfold edgesDiff.
  rewrite map_lookup_imap, lookup_empty.
  destruct (a !! s) as [ts|] eqn:Hs; simpl; [|done].
  by rewrite decide_True by set_solver.
Qed.

Lemma inferredValDiff_same v : (inferredValDiff v v).2 = false.
Proof.
  destruct v as [b|a c]; simpl; [done|].
  rewrite !edgesDiff_same. by rewrite !bool_decide_eq_true_2.
Qed.

Lemma chooseSitesToExport_content order i j (h h' : Heap) :
  deref h (mapping i) = deref h' (mapping j) →
  chooseSitesToExport order i h = chooseSitesToExport order j h'.
Proof. unfold chooseSitesToExport. by intros ->. Qed.

(** Without an exported key nothing is selected. *)
Lemma chooseSitesToExport_all_private order i h :
  (∀ s, s ∈ dom (deref h (mapping i)) → Exported s = false) →
  chooseSitesToExport order i h = ∅.
Proof.
  intros Hpriv. destruct (chooseSitesToExport_inv order i h) as (st & -> & Hinv).
  apply elem_of_equiv_empty_L. intros y Hy.
  destruct (si_toExport _ _ _ Hinv y Hy) as [[He Hin]|Hok].
  { rewrite (Hpriv y Hin) in He. done. }
  destruct (hi_sound _ _ _ _ (si_fwd _ _ _ Hinv) y) as (e & z & He & Hz & _);
    [set_solver|done|].
  apply implicatesEdge_of, implicatesEdge_undetermined, undetermined_dom in Hz.
  rewrite (Hpriv e Hz) in He. done.
Qed.

Lemma Export_all_private order i pass h :
  (∀ s, s ∈ dom (deref h (mapping i)) → Exported s = false) →
  (Export order i pass h).1 = pass.
Proof.
  intros Hpriv. apply Export_idle. intros [site val] _.
  rewrite chooseSitesToExport_all_private.
  { unfold exportSite. by rewrite bool_decide_eq_false_2 by set_solver. }
  intros s Hs. apply Hpriv. unfold make, deref in *. simpl in Hs.
  destruct (decide (fresh (dom h) = mapping i)) as [Heq|Hne].
  - rewrite <- Heq, lookup_insert_eq in Hs. simpl in Hs. set_solver.
  - by rewrite lookup_insert_ne in Hs.
Qed.

(** C3: when [mapping] holds exactly the entries of [upstreamMapping],
    [Export] hands no fact to the pass. *)
Theorem export_of_replayed_upstream_emits_nothing order i pass h :
  deref h (mapping i) = deref h (upstreamMapping i) →
  (Export order i pass h).1 = pass.
Proof.
  intros Hsame.
  destruct (decide (deref h (mapping i) = ∅)) as [Hempty|Hne].
  { unfold Export. rewrite Hempty, map_size_empty. by rewrite decide_True. }
  pose proof (deref_nonempty_allocated _ _ Hne) as Hmp.
  rewrite Hsame in Hne. pose proof (deref_nonempty_allocated _ _ Hne) as Hup.
  apply Export_idle. intros [site val] Hin.
  rewrite deref_make_other in Hin by done.
  apply elem_of_map_to_list in Hin.
  unfold exportSite. destruct (negb _); [done|].
  unfold mapLoad. rewrite deref_make_other by done.
  rewrite <- Hsame, Hin.
  pose proof (inferredValDiff_same val) as Hd.
  by destruct (inferredValDiff val val) as [[d|] [|]].
Qed.

Lemma export_of_replayed_upstream_emits_nothing_witness :
  size (chooseSitesToExport inOrder iReplayed hReplayed) = 3 ∧
  (Export inOrder iReplayed [] hReplayed).1 = [].
Proof.
  split; [by_computation|].
  apply (export_of_replayed_upstream_emits_nothing inOrder iReplayed [] hReplayed).
  by_computation.
Defined.

(** [Export] changes no map object that existed before the call, and the
    fact it emits, if any, is made of two map objects allocated by it. *)
Lemma Export_frame order i pass (h : Heap) :
  (∀ l, l ∈ dom h → (Export order i pass h).2 !! l = h !! l) ∧
  ((Export order i pass h).1 = pass ∨
   ∃ fact, (Export order i pass h).1 = fact :: pass ∧
     (mapping fact ∉ dom h) ∧ (upstreamMapping fact ∉ dom h) ∧
     mapping fact ≠ upstreamMapping fact).
Proof.
  unfold Export. case_decide as Hsz; [by split; [|left]|].
  unfold make. cbv zeta.
  set (exported := fresh (dom h)).
  assert (Hfresh : exported ∉ dom h) by apply is_fresh.
  set (h1 := <[exported := ∅]> h).
  assert (Hin1 : exported ∈ dom h1) by (unfold h1; rewrite dom_insert_L; set_solver).
  destruct (export_loop_frame i (chooseSitesToExport order i h1) exported
              (rangeList order _ (map_to_list (deref h1 (mapping i)))) h1 Hin1)
    as [Hin2 Hframe].
  set (h2 := foldl _ h1 _) in *.
  assert (Hold : ∀ l, l ∈ dom h → h2 !! l = h !! l).
  { intros l Hl. assert (l ≠ exported) by set_solver.
    rewrite Hframe by done. unfold h1. by rewrite lookup_insert_ne. }
  case_decide as Hemit; [|by split; [|left]].
  unfold newInferredMap, make. cbn [fst snd upstreamMapping mapping].
  set (up := fresh (dom h2)).
  assert (Hup : up ∉ dom h2) by apply is_fresh.
  set (mp := fresh (dom (<[up := ∅]> h2))).
  assert (Hmp : mp ∉ dom (<[up := ∅]> h2)) by apply is_fresh.
  rewrite dom_insert_L in Hmp.
  assert (Hsub : ∀ l, l ∈ dom h → l ∈ dom h2).
  { intros l Hl. apply elem_of_dom. rewrite (Hold l Hl). by apply elem_of_dom. }
  split.
  - intros l Hl. pose proof (Hsub l Hl).
    rewrite !lookup_insert_ne by set_solver. by apply Hold.
  - right. eexists. split; [done|]. cbn [upstreamMapping mapping].
    split; [done|]. split.
    + intros Hc. apply Hup. by apply Hsub.
    + intros Heq. apply Hup. by rewrite <- Heq.
Qed.

(** C10: [Export] leaves the two maps of the receiver as they were, and a
    fact it emits holds a map object that did not exist before the call,
    distinct from both maps of the receiver. *)
Theorem export_does_not_mutate_receiver order i pass h :
  allocated i h →
  (Export order i pass h).2 !! mapping i = h !! mapping i ∧
  (Export order i pass h).2 !! upstreamMapping i = h !! upstreamMapping i ∧
  ((Export order i pass h).1 = pass ∨
   ∃ fact, (Export order i pass h).1 = fact :: pass ∧
     (mapping fact ∉ dom h) ∧
     mapping fact ≠ mapping i ∧ mapping fact ≠ upstreamMapping i).
Proof.
  intros [Hup Hmp]. destruct (Export_frame order i pass h) as [Hframe Hfact].
  split; [by apply Hframe|]. split; [by apply Hframe|].
  destruct Hfact as [?|(fact & Hemit & Hm & Hu & _)]; [by left|right].
  exists fact. split; [done|]. split; [done|]. split; congruence.
Qed.

Lemma export_does_not_mutate_receiver_witness :
  (Export inOrder iS5 [] hS5).2 !! mapping iS5 = hS5 !! mapping iS5 ∧
  (Export inOrder iS5 [] hS5).2 !! upstreamMapping iS5 = hS5 !! upstreamMapping iS5 ∧
  ((Export inOrder iS5 [] hS5).1 = [] ∨
   ∃ fact, (Export inOrder iS5 [] hS5).1 = fact :: [] ∧
     (mapping fact ∉ dom hS5) ∧
     mapping fact ≠ mapping iS5 ∧ mapping fact ≠ upstreamMapping iS5).
Proof.
  apply (export_does_not_mutate_receiver inOrder iS5 [] hS5).
  split; by_computation.
Defined.

(** Scenario S4: only E1 is selected, and its emitted entry still lists
    P1 under its implicates. *)
Example asymmetric_exclusion :
  chooseSitesToExport inOrder i0 hS4 = {[E1]} ∧
  ∃ fact, (Export inOrder i0 [] hS4).1 = [fact] ∧
    deref (Export inOrder i0 [] hS4).2 (mapping fact)
      = {[ E1 := UndeterminedVal {[P1 := {[t1]}]} ∅ ]}.
Proof.
  split; [by_computation|].
  exists (MkInferredMap 4 3). split; by_computation.
Qed.

(** In scenario S5 the emitted fact holds the two new sites and not A. *)
Example export_diff_against_upstream :
  ∃ fact, (Export inOrder iS5 [] hS5).1 = [fact] ∧
    dom (deref (Export inOrder iS5 [] hS5).2 (mapping fact)) = {[E1; E2]}.
Proof.
  exists (MkInferredMap 4 3). split; by_computation.
Qed.

(** ** Claims on the export selector *)

(** C1, as stated for any mapping, fails: in [mOneSided] the path
    E1 -> P1 -> E2 follows implicates edges between two exported
    undetermined sites, and P1 is not selected. *)
Lemma export_not_convex_on_one_sided_map :
  Exported E1 = true ∧ Exported E2 = true ∧
  implicatesPath (deref hOneSided (mapping iRaw)) E1 [P1] E2 ∧
  P1 ∉ chooseSitesToExport inOrder iRaw hOneSided.
Proof.
  split; [reflexivity|]. split; [reflexivity|]. split; [|by_computation].
  apply path_step; [apply implicatesEdge_of; by_computation|].
  apply path_edge; [apply implicatesEdge_of|unfold undetermined]; by_computation.
Qed.

(** C1 (amended): on every mapping whose undetermined sites satisfy edge
    symmetry, the selected set is convex, and it holds every key of the
    mapping whose exported bit is set. *)
Theorem export_convexity order i h :
  edgeSymmetric (deref h (mapping i)) →
  convex (deref h (mapping i)) (chooseSitesToExport order i h) ∧
  (∀ s, s ∈ dom (deref h (mapping i)) → Exported s = true →
        s ∈ chooseSitesToExport order i h).
Proof.
  intros Hsym. destruct (chooseSitesToExport_inv order i h) as (st & -> & Hinv).
  split; [by apply selected_convex|].
  intros s. by apply selected_exported.
Qed.

Lemma export_convexity_witness :
  chooseSitesToExport inOrder i0 hS3 = {[E1; P1; P2; E2]} ∧
  convex (deref hS3 (mapping i0)) (chooseSitesToExport inOrder i0 hS3) ∧
  (∀ s, s ∈ dom (deref hS3 (mapping i0)) → Exported s = true →
        s ∈ chooseSitesToExport inOrder i0 hS3).
Proof.
  split; [by_computation|].
  apply (export_convexity inOrder i0 hS3).
  apply (runMutations_symmetric i0 callsS3 h0 hS3); by_computation.
Defined.

Lemma implicatesPath_inner_edges m a l b :
  implicatesPath m a l b →
  ∀ x, x ∈ l → (∃ w, implicatesEdge m w x) ∧ (∃ y, implicatesEdge m x y).
Proof.
  induction 1 as [a b Hedge Hb|a x l b Hedge Hpath IH]; intros y Hy.
  - by apply elem_of_nil in Hy.
  - apply elem_of_cons in Hy as [->|Hy]; [|by apply IH].
    split; [by exists a|]. destruct Hpath; eauto.
Qed.

(** C2, as stated, fails on a map without edge symmetry: in [mDangling]
    the private P1 is selected, yet it lies on no implicates path, and
    the selected set stays convex without it. *)
Lemma export_not_minimal_on_dangling_map :
  P1 ∈ chooseSitesToExport inOrder iRaw hDangling ∧ Exported P1 = false ∧
  (∀ a b l, implicatesPath (deref hDangling (mapping iRaw)) a l b → P1 ∉ l) ∧
  convex (deref hDangling (mapping iRaw))
         (chooseSitesToExport inOrder iRaw hDangling ∖ {[P1]}).
Proof.
  assert (Hnone : ∀ a b l x,
    implicatesPath (deref hDangling (mapping iRaw)) a l b → x ∉ l).
  { intros a b l x Hpath Hx.
    destruct (implicatesPath_inner_edges _ _ _ _ Hpath x Hx)
      as [[w Hin] [y Hout]].
    assert (Hm : deref hDangling (mapping iRaw) = mDangling) by by_computation.
    rewrite Hm in Hin, Hout.
    assert (Hedges : ∀ u v, implicatesEdge mDangling u v → u = E1 ∧ v = P1).
    { intros u v Hedge.
      pose proof (undetermined_dom _ _ (implicatesEdge_undetermined _ _ _ Hedge)) as Hu.
      apply implicatesEdge_of in Hedge.
      assert (Hdom : dom mDangling = {[E1; P1; E2]}) by by_computation.
      assert (HE1 : implicatesOf mDangling E1 = [P1]) by by_computation.
      assert (HP1 : implicatesOf mDangling P1 = []) by by_computation.
      assert (HE2 : implicatesOf mDangling E2 = []) by by_computation.
      rewrite Hdom in Hu.
      apply elem_of_union in Hu as [[Hu|Hu]%elem_of_union|Hu];
        apply elem_of_singleton in Hu; subst u.
      - rewrite HE1 in Hedge. apply list_elem_of_singleton in Hedge. subst v.
        split; reflexivity.
      - rewrite HP1 in Hedge. apply elem_of_nil in Hedge. destruct Hedge.
      - rewrite HE2 in Hedge. apply elem_of_nil in Hedge. destruct Hedge. }
    destruct (Hedges _ _ Hin) as [_ ->]. destruct (Hedges _ _ Hout) as [Heq _].
    assert (Hne : P1 ≠ E1) by by_computation. exact (Hne Heq). }
  split; [by_computation|]. split; [reflexivity|]. split.
  - intros a b l. apply Hnone.
  - intros a b l _ _ Hpath x Hx. exfalso. exact (Hnone a b l x Hpath Hx).
Qed.

(** C2 (amended): on every mapping whose undetermined sites satisfy edge
    symmetry, each private selected site is an intermediate site of an
    implicates path between two exported sites, so the selected set
    without it is not convex; and when no key of the mapping is exported,
    [Export] hands no fact to the pass. *)
Theorem export_minimality order i h :
  (edgeSymmetric (deref h (mapping i)) →
   ∀ p, p ∈ chooseSitesToExport order i h → Exported p = false →
     (∃ a b l, Exported a = true ∧ Exported b = true ∧
        implicatesPath (deref h (mapping i)) a l b ∧ p ∈ l) ∧
     ¬ convex (deref h (mapping i)) (chooseSitesToExport order i h ∖ {[p]})) ∧
  ((∀ s, s ∈ dom (deref h (mapping i)) → Exported s = false) →
   ∀ pass, (Export order i pass h).1 = pass).
Proof.
  split.
  - intros Hsym p. destruct (chooseSitesToExport_inv order i h) as (st & -> & Hinv).
    intros Hp Hpriv. split.
    + exact (selected_private_on_path _ st Hinv Hsym p Hp Hpriv).
    + exact (selected_minimal _ st Hinv Hsym p Hp Hpriv).
  - intros Hpriv pass. by apply Export_all_private.
Qed.

Lemma export_minimality_witness :
  ((∃ a b l, Exported a = true ∧ Exported b = true ∧
      implicatesPath (deref hS3 (mapping i0)) a l b ∧ P1 ∈ l) ∧
   ¬ convex (deref hS3 (mapping i0)) (chooseSitesToExport inOrder i0 hS3 ∖ {[P1]})) ∧
  (Export inOrder i0 [] hS2).1 = [].
Proof.
  split.
  - apply (proj1 (export_minimality inOrder i0 hS3)).
    + apply (runMutations_symmetric i0 callsS3 h0 hS3); by_computation.
    + by_computation.
    + reflexivity.
  - apply (proj2 (export_minimality inOrder i0 hS2)).
    intros s Hs.
    assert (Hdom : dom (deref hS2 (mapping i0)) = {[P1; P2; P3]}) by by_computation.
    rewrite Hdom in Hs.
    apply elem_of_union in Hs as [[Hs|Hs]%elem_of_union|Hs];
      apply elem_of_singleton in Hs; subst s; reflexivity.
Defined.

(** * Further properties: the configuration *)

Lemma HasPrefix_spec s p : HasPrefix s p = true ↔ ∃ rest, s = p +:+ rest.
Proof.
  unfold HasPrefix. revert s. induction p as [|c p IH]; intros s.
  - split; [by exists s|by destruct s].
  - destruct s as [|c' s]; simpl.
    + split; [done|]. by intros [rest ?].
    + destruct (Ascii.ascii_dec c c') as [->|Hne].
      * rewrite IH. split; intros [rest Hr]; exists rest; [by rewrite Hr|].
        by injection Hr.
      * split; [done|]. intros [rest Hr]. by injection Hr.
Qed.

Lemma HasPrefix_empty s : HasPrefix s EmptyString = true.
Proof. unfold HasPrefix. by destruct s. Qed.

Lemma Contains_spec s substr :
  Contains s substr = true ↔ ∃ pre suf, s = pre +:+ substr +:+ suf.
Proof.
  induction s as [|c s IH]; cbn [Contains].
  - destruct (String.prefix substr EmptyString) eqn:Hp.
    + split; [|done]. intros _. apply (HasPrefix_spec EmptyString) in Hp as [rest Hr].
      by exists EmptyString, rest.
    + split; [done|]. intros (pre & suf & Heq).
      destruct pre; [|done]. simpl in Heq.
      assert (HasPrefix EmptyString substr = true) as Hc
        by (apply HasPrefix_spec; by exists suf).
      unfold HasPrefix in Hc. congruence.
  - destruct (String.prefix substr (String c s)) eqn:Hp.
    + split; [|done]. intros _. apply (HasPrefix_spec (String c s)) in Hp as [rest Hr].
      by exists EmptyString, rest.
    + rewrite IH. split.
      * intros (pre & suf & ->). by exists (String c pre), suf.
      * intros (pre & suf & Heq). destruct pre as [|c' pre]; simpl in Heq.
        { assert (HasPrefix (String c s) substr = true) as Hc
            by (apply HasPrefix_spec; by exists suf).
          unfold HasPrefix in Hc. congruence. }
        injection Heq as -> ->. by exists pre, suf.
Qed.

Lemma Contains_empty s : Contains s EmptyString = true.
Proof. by destruct s. Qed.

Lemma excludedByPrefix_spec path excludes :
  excludedByPrefix path excludes = true ↔
  ∃ exclude, exclude ∈ excludes ∧ HasPrefix path exclude = true.
Proof.
  induction excludes as [|e excludes IH]; simpl.
  - split; [done|]. intros (? & []%elem_of_nil & _).
  - destruct (HasPrefix path e) eqn:He.
    + split; [|done]. intros _. exists e. split; [left|done].
    + rewrite IH. split.
      * intros (x & Hx & Hp). exists x. split; [by right|done].
      * intros (x & [->|Hx]%elem_of_cons & Hp); [congruence|by exists x].
Qed.

Lemma includeLoop_spec path includes excludes :
  includeLoop path includes excludes = true ↔
  (∃ include, include ∈ includes ∧ HasPrefix path include = true) ∧
  excludedByPrefix path excludes = false.
Proof.
  induction includes as [|inc includes IH]; simpl.
  - split; [done|]. intros [(? & []%elem_of_nil & _) _].
  - destruct (HasPrefix path inc) eqn:Hi; simpl.
    + rewrite negb_true_iff. split.
      * intros Hex. split; [|done]. exists inc. split; [left|done].
      * by intros [_ ?].
    + rewrite IH. split.
      * intros [(x & Hx & Hp) Hex]. split; [|done]. exists x. split; [by right|done].
      * intros [(x & [->|Hx]%elem_of_cons & Hp) Hex]; [congruence|].
        split; [by exists x|done].
Qed.

Lemma includeLoop_excluded path includes excludes :
  excludedByPrefix path excludes = true →
  includeLoop path includes excludes = false.
Proof.
  intros Hex. apply not_true_is_false. intros [_ Hc]%includeLoop_spec. congruence.
Qed.

(** X1: a package is in scope exactly when it is not [nil], some include
    prefix is a prefix of its path and no exclude prefix is. *)
Theorem IsPkgInScope_iff c pkg :
  IsPkgInScope c pkg = true ↔
  ∃ path, pkg = Some path ∧
    (∃ include rest, include ∈ includePkgs c ∧ path = include +:+ rest) ∧
    (∀ exclude rest, exclude ∈ excludePkgs c → path ≠ exclude +:+ rest).
Proof.
  unfold IsPkgInScope. destruct pkg as [path|].
  2:{ split; [done|]. by intros (? & ? & _). }
  rewrite includeLoop_spec. split.
  - intros [(inc & Hinc & [rest Hp]%HasPrefix_spec) Hex].
    exists path. split; [done|]. split; [by exists inc, rest|].
    intros e rest' He Heq.
    assert (excludedByPrefix path (excludePkgs c) = true) as Ht; [|congruence].
    apply excludedByPrefix_spec. exists e. split; [done|].
    apply HasPrefix_spec. by exists rest'.
  - intros (p & [= <-] & (inc & rest & Hinc & Hp) & Hex). split.
    + exists inc. split; [done|]. apply HasPrefix_spec. by exists rest.
    + apply not_true_is_false.
      intros (e & He & [rest' Hr]%HasPrefix_spec)%excludedByPrefix_spec.
      by apply (Hex e rest').
Qed.

Lemma excludedByDocString_spec text excludes :
  excludedByDocString text excludes = true ↔
  ∃ exclude, exclude ∈ excludes ∧ Contains text exclude = true.
Proof.
  induction excludes as [|e excludes IH]; simpl.
  - split; [done|]. intros (? & []%elem_of_nil & _).
  - destruct (Contains text e) eqn:He.
    + split; [|done]. intros _. exists e. split; [left|done].
    + rewrite IH. split.
      * intros (x & Hx & Hp). exists x. split; [by right|done].
      * intros (x & [->|Hx]%elem_of_cons & Hp); [congruence|by exists x].
Qed.

Lemma commentLoop_spec namePos comments excludes :
  commentLoop namePos comments excludes = false ↔
  ∃ comment, comment ∈ comments ∧ (CommentPos comment ≤ namePos)%Z ∧
    excludedByDocString (CommentText comment) excludes = true.
Proof.
  induction comments as [|cm comments IH]; simpl.
  - split; [done|]. intros (? & []%elem_of_nil & _).
  - destruct (Z.ltb_spec namePos (CommentPos cm)) as [Hlt|Hle].
    + rewrite IH. split.
      * intros (x & Hx & ?). exists x. split; [by right|done].
      * intros (x & [->|Hx]%elem_of_cons & Hpos & Hex); [lia|by exists x].
    + destruct (excludedByDocString (CommentText cm) excludes) eqn:Hex.
      * split; [|done]. intros _. exists cm. split; [left|done].
      * rewrite IH. split.
        -- intros (x & Hx & ?). exists x. split; [by right|done].
        -- intros (x & [->|Hx]%elem_of_cons & Hpos & Hex'); [congruence|by exists x].
Qed.

(** X2: a file is out of scope exactly when the text of a comment placed
    at or before the package name contains one of the exclude strings. *)
Theorem IsFileInScope_iff c file :
  IsFileInScope c file = false ↔
  ∃ comment exclude pre suf,
    comment ∈ Comments file ∧ (CommentPos comment ≤ NamePos file)%Z ∧
    exclude ∈ excludeFileDocStrings c ∧
    CommentText comment = pre +:+ exclude +:+ suf.
Proof.
  unfold IsFileInScope. case_decide as Hlen.
  - split; [done|]. intros (cm & e & pre & suf & _ & _ & He & _).
    destruct (excludeFileDocStrings c); [by apply elem_of_nil in He|done].
  - rewrite commentLoop_spec. split.
    + intros (cm & Hcm & Hpos & (e & He & (pre & suf & Hc)%Contains_spec)%excludedByDocString_spec).
      by exists cm, e, pre, suf.
    + intros (cm & e & pre & suf & Hcm & Hpos & He & Hc). exists cm.
      split; [done|]. split; [done|]. apply excludedByDocString_spec.
      exists e. split; [done|]. apply Contains_spec. by exists pre, suf.
Qed.

Lemma SplitComma_nonempty s : SplitComma s ≠ [].
Proof.
  destruct s as [|c s]; [done|]. simpl.
  destruct (Ascii.eqb c comma); [done|]. by destruct (SplitComma s).
Qed.

(** The model of [strings.Split]: joining the pieces with commas gives the
    string back. *)
Lemma SplitComma_join s : String.concat (String comma EmptyString) (SplitComma s) = s.
Proof.
  induction s as [|c s IH]; [done|]. simpl.
  destruct (Ascii.eqb_spec c comma) as [->|Hne].
  - pose proof (SplitComma_nonempty s) as Hn.
    destruct (SplitComma s) as [|p ps] eqn:Hs; [done|].
    change (String.concat _ (EmptyString :: p :: ps))
      with (String comma (String.concat (String comma EmptyString) (p :: ps))).
    by rewrite IH.
  - pose proof (SplitComma_nonempty s) as Hn.
    destruct (SplitComma s) as [|p ps] eqn:Hs; [done|].
    rewrite <- IH. by destruct ps.
Qed.

Lemma SplitComma_trailing s :
  SplitComma (s +:+ String comma EmptyString) = SplitComma s ++ [EmptyString].
Proof.
  induction s as [|c s IH]; [done|]. simpl.
  destruct (Ascii.eqb c comma); [by rewrite IH|].
  rewrite IH. pose proof (SplitComma_nonempty s).
  by destruct (SplitComma s).
Qed.

Lemma run_excludePkgs flags exclude :
  excludePkgsFlag flags = StringValue exclude → exclude ≠ EmptyString →
  excludePkgs (run flags).1 = SplitComma exclude.
Proof.
  intros He Hne. unfold run. cbv zeta. rewrite He.
  assert (String.eqb exclude EmptyString = false) as -> by by apply String.eqb_neq.
  simpl. by destruct (excludeFileDocStringsFlag flags) as [|d|]; [|destruct (negb _)|].
Qed.

Lemma run_excludeFileDocStrings flags docstrings :
  excludeFileDocStringsFlag flags = StringValue docstrings →
  docstrings ≠ EmptyString →
  excludeFileDocStrings (run flags).1 = SplitComma docstrings.
Proof.
  intros He Hne. unfold run. cbv zeta. rewrite He.
  by assert (String.eqb docstrings EmptyString = false) as -> by by apply String.eqb_neq.
Qed.

Lemma append_comma_nonempty s : s +:+ String comma EmptyString ≠ EmptyString.
Proof. by destruct s. Qed.

(** X3: without the three list flags, [run] builds a configuration under
    which every package that has a path and every file is in scope, and it
    reports no error. *)
Theorem run_defaults_put_everything_in_scope flags :
  flagUnset (includePkgsFlag flags) →
  flagUnset (excludePkgsFlag flags) →
  flagUnset (excludeFileDocStringsFlag flags) →
  (∀ path, IsPkgInScope (run flags).1 (Some path) = true) ∧
  (∀ file, IsFileInScope (run flags).1 file = true) ∧
  (run flags).2 = None.
Proof.
  intros Hi He Hd.
  assert (Hconf : ∃ b, (run flags).1 = MkConfig b [EmptyString] [] []).
  { unfold run, flagUnset in *. cbv zeta.
    destruct (prettyPrintFlag flags), (includePkgsFlag flags),
      (excludePkgsFlag flags), (excludeFileDocStringsFlag flags);
      simpl in *; subst; simpl; eauto. }
  destruct Hconf as [b ->]. split; [|split; [|done]].
  - intros path. simpl. by rewrite HasPrefix_empty.
  - done.
Qed.

Lemma run_defaults_put_everything_in_scope_witness :
  IsPkgInScope (run (MkFlags (BoolValue false) (StringValue EmptyString)
                             OtherValue (StringValue EmptyString))).1
               (Some "go.uber.org/nilaway") = true ∧
  IsFileInScope (run (MkFlags (BoolValue false) (StringValue EmptyString)
                              OtherValue (StringValue EmptyString))).1
                (MkFile [MkCommentGroup 1 "Code generated by X. DO NOT EDIT."] 40)
    = true.
Proof.
  destruct (run_defaults_put_everything_in_scope
              (MkFlags (BoolValue false) (StringValue EmptyString)
                       OtherValue (StringValue EmptyString)))
    as (Hp & Hf & _); [reflexivity | exact I | reflexivity |].
  split; [apply Hp | apply Hf].
Defined.

(** X4: the exclude list wins: a package whose path starts with a piece of
    the exclude-pkgs flag is out of scope, whatever the include-pkgs flag. *)
Theorem run_exclude_takes_precedence flags exclude piece rest :
  excludePkgsFlag flags = StringValue exclude →
  piece ∈ SplitComma exclude →
  exclude ≠ EmptyString →
  IsPkgInScope (run flags).1 (Some (piece +:+ rest)) = false.
Proof.
  intros He Hin Hne. unfold IsPkgInScope. apply includeLoop_excluded.
  rewrite (run_excludePkgs flags exclude He Hne).
  apply excludedByPrefix_spec. exists piece. split; [done|].
  apply HasPrefix_spec. by exists rest.
Qed.

Lemma run_exclude_takes_precedence_witness :
  IsPkgInScope
    (run (MkFlags OtherValue (StringValue "go.uber.org")
                  (StringValue "example.com,go.uber.org/nilaway/testdata")
                  OtherValue)).1
    (Some ("go.uber.org/nilaway/testdata" +:+ "/integration")) = false.
Proof.
  apply (run_exclude_takes_precedence _ "example.com,go.uber.org/nilaway/testdata").
  - reflexivity.
  - vm_compute. right. left.
  - discriminate.
Defined.

(** X5: a trailing comma in a list flag adds the empty string to the list,
    and the empty string is a prefix and a substring of everything: after
    it in exclude-pkgs no package is in scope, and after it in
    exclude-file-docstrings every file with a comment at or before the
    package name is out of scope. *)
Theorem run_trailing_comma_excludes_everything flags s :
  (excludePkgsFlag flags = StringValue (s +:+ String comma EmptyString) →
   ∀ pkg, IsPkgInScope (run flags).1 pkg = false) ∧
  (excludeFileDocStringsFlag flags = StringValue (s +:+ String comma EmptyString) →
   ∀ file comment, comment ∈ Comments file →
     (CommentPos comment ≤ NamePos file)%Z →
     IsFileInScope (run flags).1 file = false).
Proof.
  split.
  - intros He [path|]; [|done]. unfold IsPkgInScope. apply includeLoop_excluded.
    rewrite (run_excludePkgs flags _ He (append_comma_nonempty s)).
    apply excludedByPrefix_spec. exists EmptyString.
    split; [|apply HasPrefix_empty].
    rewrite SplitComma_trailing. set_solver.
  - intros He file comment Hin Hpos. unfold IsFileInScope.
    rewrite (run_excludeFileDocStrings flags _ He (append_comma_nonempty s)).
    rewrite SplitComma_trailing.
    rewrite decide_False by (rewrite length_app; simpl; lia).
    apply commentLoop_spec. exists comment. split; [done|]. split; [done|].
    apply excludedByDocString_spec. exists EmptyString.
    split; [set_solver|apply Contains_empty].
Qed.

Lemma run_trailing_comma_excludes_everything_witness :
  IsPkgInScope
    (run (MkFlags OtherValue OtherValue (StringValue "vendor,") OtherValue)).1
    (Some "go.uber.org/nilaway") = false ∧
  IsFileInScope
    (run (MkFlags OtherValue OtherValue OtherValue (StringValue "@generated,"))).1
    (MkFile [MkCommentGroup 1 "Package foo does things."] 40) = false.
Proof.
  split.
  - apply (proj1 (run_trailing_comma_excludes_everything
                    (MkFlags OtherValue OtherValue (StringValue "vendor,") OtherValue)
                    "vendor")).
    reflexivity.
  - apply (proj2 (run_trailing_comma_excludes_everything
                    (MkFlags OtherValue OtherValue OtherValue
                             (StringValue "@generated,"))
                    "@generated")
                 eq_refl _ (MkCommentGroup 1 "Package foo does things.")).
    + left.
    + simpl. lia.
Defined.

(** * Further properties: the mutation API *)

Lemma StoreImplication_stage from to assertion i h :
  implicationStage from to assertion (deref h (mapping i))
    (deref (heapOf (StoreImplication from to assertion i h)) (mapping i)) ∧
  ∀ l, l ≠ mapping i →
    heapOf (StoreImplication from to assertion i h) !! l = h !! l.
Proof.
  unfold StoreImplication. cbn [foldl].
  set (h1 := ensureUndetermined i (ensureUndetermined i h from) to).
  assert (H1 : deref h1 (mapping i) =
                 ensureContent (ensureContent (deref h (mapping i)) from) to).
  { subst h1. by rewrite !deref_ensureUndetermined. }
  assert (H1' : ∀ l, l ≠ mapping i → h1 !! l = h !! l).
  { intros l Hl. subst h1. by rewrite !lookup_ensureUndetermined_ne. }
  clearbody h1. unfold mapLoad.
  destruct (deref h1 (mapping i) !! from) as [[?|a b]|] eqn:Hf; simpl.
  - split; [rewrite H1; constructor|done].
  - rewrite deref_mapStore.
    destruct (<[from:=_]> (deref h1 (mapping i)) !! to) as [[?|a' b']|] eqn:Ht; simpl.
    + split; [|intros l Hl; by rewrite lookup_mapStore_ne, H1'].
      rewrite deref_mapStore, H1. apply stage_from. by rewrite <- H1.
    + split; [|intros l Hl; by rewrite !lookup_mapStore_ne, H1'].
      rewrite !deref_mapStore, H1. apply (stage_to _ _ _ _ a b a' b').
      * by rewrite <- H1.
      * by rewrite <- H1.
    + split; [|intros l Hl; by rewrite lookup_mapStore_ne, H1'].
      rewrite deref_mapStore, H1. apply stage_from. by rewrite <- H1.
  - split; [rewrite H1; constructor|done].
Qed.

(** What every stage keeps of the map it started from. *)
Lemma implicationStage_keeps from to assertion m m' :
  implicationStage from to assertion m m' →
  (∀ s, s ≠ from → s ≠ to → m' !! s = m !! s) ∧
  (∀ s b, m !! s = Some (DeterminedVal b) → m' !! s = Some (DeterminedVal b)) ∧
  (∀ s, is_Some (m !! s) → is_Some (m' !! s)) ∧
  dom m' = {[from; to]} ∪ dom m.
Proof.
  assert (Hens : ∀ s, ensureContent (ensureContent m from) to !! s =
    match m !! s with
    | Some v => Some v
    | None => if decide (s = from ∨ s = to) then Some (UndeterminedVal ∅ ∅) else None
    end).
  { intros s. rewrite !lookup_ensureContent. destruct (m !! s); [done|].
    destruct (decide (from = s)) as [->|?].
    - rewrite decide_True by auto. done.
    - destruct (decide (to = s)) as [->|?].
      + rewrite decide_True by auto. done.
      + rewrite decide_False by naive_solver. done. }
  assert (Hdom : dom (ensureContent (ensureContent m from) to) = {[from; to]} ∪ dom m).
  { apply set_eq. intros s. rewrite elem_of_dom, Hens, elem_of_union, elem_of_dom.
    destruct (m !! s) eqn:Hs.
    - split; [right; eauto|eauto].
    - case_decide as Hc.
      + split; [intros _; left; set_solver|eauto].
      + split; [by intros []|]. intros [?|[]]; [|done]. set_solver. }
  intros Hstage. destruct Hstage as [|a b Hf|a b a' b' Hf Ht].
  - repeat split.
    + intros s ? ?. rewrite Hens. destruct (m !! s); [done|].
      by rewrite decide_False by naive_solver.
    + intros s v Hs. by rewrite Hens, Hs.
    + intros s [v Hs]. rewrite Hens, Hs. eauto.
    + done.
  - repeat split.
    + intros s ? ?. rewrite lookup_insert_ne by done. rewrite Hens.
      destruct (m !! s); [done|]. by rewrite decide_False by naive_solver.
    + intros s v Hs. destruct (decide (s = from)) as [->|Hne].
      * rewrite Hens, Hs in Hf. done.
      * rewrite lookup_insert_ne by done. by rewrite Hens, Hs.
    + intros s [v Hs]. destruct (decide (s = from)) as [->|Hne].
      * rewrite lookup_insert_eq. eauto.
      * rewrite lookup_insert_ne by done. rewrite Hens, Hs. eauto.
    + rewrite dom_insert_L, Hdom. set_solver.
  - repeat split.
    + intros s ? ?. rewrite !lookup_insert_ne by done. rewrite Hens.
      destruct (m !! s); [done|]. by rewrite decide_False by naive_solver.
    + intros s v Hs. destruct (decide (s = to)) as [->|Hne'].
      * destruct (decide (to = from)) as [Heq|Hne].
        { rewrite Hens in Hf. rewrite <- Heq, Hs in Hf. done. }
        rewrite lookup_insert_ne in Ht by done. rewrite Hens, Hs in Ht. done.
      * rewrite lookup_insert_ne by done. destruct (decide (s = from)) as [->|Hne].
        { rewrite Hens, Hs in Hf. done. }
        rewrite lookup_insert_ne by done. by rewrite Hens, Hs.
    + intros s [v Hs]. destruct (decide (s = to)) as [->|Hne'].
      * rewrite lookup_insert_eq. eauto.
      * rewrite lookup_insert_ne by done. destruct (decide (s = from)) as [->|Hne].
        { rewrite lookup_insert_eq. eauto. }
        rewrite lookup_insert_ne by done. rewrite Hens, Hs. eauto.
    + rewrite !dom_insert_L, Hdom. set_solver.
Qed.

Lemma dom_addSiteWithAssertion site assertion (s : sitesWithAssertions) :
  dom (addSiteWithAssertion site assertion s) = {[site]} ∪ dom s.
Proof. unfold addSiteWithAssertion. by rewrite dom_insert_L. Qed.

Lemma neighboursPresent_insert_determined m site value :
  neighboursPresent m →
  neighboursPresent (<[site := DeterminedVal value]> m).
Proof.
  intros Hm u a b Hu. rewrite dom_insert_L.
  destruct (decide (u = site)) as [->|Hne].
  - rewrite lookup_insert_eq in Hu. done.
  - rewrite lookup_insert_ne in Hu by done.
    destruct (Hm _ _ _ Hu). split; set_solver.
Qed.

Lemma neighboursPresent_ensureContent m s :
  neighboursPresent m → neighboursPresent (ensureContent m s).
Proof.
  intros Hm. unfold ensureContent. destruct (m !! s) eqn:Hs; [done|].
  intros u a b Hu. rewrite dom_insert_L.
  destruct (decide (u = s)) as [->|Hne].
  - rewrite lookup_insert_eq in Hu. injection Hu as <- <-.
    unfold newSitesWithAssertions. rewrite dom_empty_L. split; set_solver.
  - rewrite lookup_insert_ne in Hu by done.
    destruct (Hm _ _ _ Hu). split; set_solver.
Qed.

Lemma neighboursPresent_insert m s a b :
  neighboursPresent m → s ∈ dom m → dom a ⊆ dom m → dom b ⊆ dom m →
  neighboursPresent (<[s := UndeterminedVal a b]> m).
Proof.
  intros Hm Hs Ha Hb u a' b' Hu. rewrite dom_insert_L.
  destruct (decide (u = s)) as [->|Hne].
  - rewrite lookup_insert_eq in Hu. injection Hu as <- <-. split; set_solver.
  - rewrite lookup_insert_ne in Hu by done.
    destruct (Hm _ _ _ Hu). split; set_solver.
Qed.

Lemma implicationStage_neighbours from to assertion m m' :
  implicationStage from to assertion m m' →
  neighboursPresent m → neighboursPresent m'.
Proof.
  intros Hstage Hm.
  pose proof (neighboursPresent_ensureContent _ to
                (neighboursPresent_ensureContent _ from Hm)) as H1.
  pose proof (implicationStage_keeps _ _ _ _ _
                (stage_created from to assertion m)) as (_ & _ & _ & Hdom).
  assert (Hfrom : from ∈ dom (ensureContent (ensureContent m from) to))
    by (rewrite Hdom; set_solver).
  assert (Hto : to ∈ dom (ensureContent (ensureContent m from) to))
    by (rewrite Hdom; set_solver).
  clear Hdom.
  destruct Hstage as [|a b Hf|a b a' b' Hf Ht].
  - done.
  - destruct (H1 _ _ _ Hf) as [Ha Hb].
    apply neighboursPresent_insert; [done|done| |done].
    rewrite dom_addSiteWithAssertion. set_solver.
  - destruct (H1 _ _ _ Hf) as [Ha Hb].
    assert (H2 : neighboursPresent
              (<[from := UndeterminedVal (addSiteWithAssertion to assertion a) b]>
                 (ensureContent (ensureContent m from) to))).
    { apply neighboursPresent_insert; [done|done| |done].
      rewrite dom_addSiteWithAssertion. set_solver. }
    destruct (H2 _ _ _ Ht) as [Ha' Hb'].
    apply neighboursPresent_insert; [done| |done|].
    + rewrite dom_insert_L. set_solver.
    + rewrite dom_addSiteWithAssertion. rewrite dom_insert_L in *. set_solver.
Qed.

(** One call of the mutation API, on the content and on the rest of the
    heap. *)
Lemma applyMutation_keeps i h c :
  let m := deref h (mapping i) in
  let h' := heapOf (applyMutation i h c) in
  let m' := deref h' (mapping i) in
  (∀ s, is_Some (m !! s) → is_Some (m' !! s)) ∧
  (∀ s, isDetermined (m !! s) = true → isDetermined (m' !! s) = true) ∧
  (neighboursPresent m → neighboursPresent m') ∧
  (∀ l, l ≠ mapping i → h' !! l = h !! l).
Proof.
  destruct c as [site value|from to assertion]; simpl.
  - unfold StoreDetermined. rewrite deref_mapStore. split; [|split; [|split]].
    + intros s Hs. destruct (decide (s = site)) as [->|Hne].
      * rewrite lookup_insert_eq. eauto.
      * by rewrite lookup_insert_ne.
    + intros s Hs. destruct (decide (s = site)) as [->|Hne].
      * by rewrite lookup_insert_eq.
      * by rewrite lookup_insert_ne.
    + apply neighboursPresent_insert_determined.
    + intros l Hl. by rewrite lookup_mapStore_ne.
  - destruct (StoreImplication_stage from to assertion i h) as [Hstage Hframe].
    destruct (implicationStage_keeps _ _ _ _ _ Hstage) as (_ & Hdet & Hkeys & _).
    split; [|split; [|split]].
    + done.
    + intros s Hs. destruct (deref h (mapping i) !! s) as [[v|]|] eqn:E; try done.
      by rewrite (Hdet _ _ E).
    + by apply (implicationStage_neighbours from to assertion).
    + done.
Qed.

Lemma runMutations_keeps i cs : ∀ h,
  let m := deref h (mapping i) in
  let h' := heapOf (runMutations i cs h) in
  let m' := deref h' (mapping i) in
  (∀ s, is_Some (m !! s) → is_Some (m' !! s)) ∧
  (∀ s, isDetermined (m !! s) = true → isDetermined (m' !! s) = true) ∧
  (neighboursPresent m → neighboursPresent m') ∧
  (∀ l, l ≠ mapping i → h' !! l = h !! l).
Proof.
  induction cs as [|c cs IH]; intros h; simpl.
  - done.
  - pose proof (applyMutation_keeps i h c) as (K1 & K2 & K3 & K4).
    destruct (applyMutation i h c) as [h1|h1]; simpl in *.
    + destruct (IH h1) as (J1 & J2 & J3 & J4).
      split; [|split; [|split]]; intros.
      * by apply J1, K1.
      * by apply J2, K2.
      * by apply J3, K3.
      * by rewrite J4, K4.
    + done.
Qed.


(** X6: [StoreDetermined] is a plain overwrite of one key of [i.mapping]:
    the site then loads the verdict just stored, whatever it held before
    (an undetermined value with its edges included); every other site,
    and every other map object, [i.upstreamMapping] in particular, is
    unchanged; the map grows by one key exactly when the site was absent;
    and of two verdicts stored for the same site only the later one is
    left. *)
Theorem store_determined_overwrites site value i h :
  let h' := StoreDetermined site value i h in
  Load site i h' = Some (DeterminedVal value) ∧
  (∀ s, s ≠ site → Load s i h' = Load s i h) ∧
  (∀ l, l ≠ mapping i → h' !! l = h !! l) ∧
  Len i h' = match Load site i h with
             | Some _ => Len i h
             | None => S (Len i h)
             end ∧
  (∀ value', StoreDetermined site value' i h' = StoreDetermined site value' i h).
Proof.
  unfold StoreDetermined, Load, Len, mapLoad. cbv zeta.
  rewrite deref_mapStore. split; [|split; [|split; [|split]]].
  - by rewrite lookup_insert_eq.
  - intros s Hs. by rewrite lookup_insert_ne.
  - intros l Hl. by rewrite lookup_mapStore_ne.
  - destruct (deref h (mapping i) !! site) eqn:Hs.
    + rewrite <- !size_dom, dom_insert_L.
      f_equal. apply elem_of_dom_2 in Hs. set_solver.
    + by rewrite map_size_insert_None.
  - intros value'. unfold mapStore. rewrite insert_insert_eq.
    f_equal. unfold deref. rewrite lookup_insert_eq. simpl.
    by rewrite insert_insert_eq.
Qed.



(** X9: in a map built from the empty map by any sequence of
    [StoreDetermined] and [StoreImplication] calls (returning or ending in
    a panic), every site recorded under the [Implicates] or the
    [Implicants] of an undetermined site is itself a key of the map.  (It
    need not be undetermined: [StoreDetermined] may have overwritten
    it.) *)
Theorem neighbours_are_keys i cs h :
  deref h (mapping i) = ∅ →
  let h' := heapOf (runMutations i cs h) in
  ∀ u implicates implicants,
    Load u i h' = Some (UndeterminedVal implicates implicants) →
    ∀ v, v ∈ dom implicates ∨ v ∈ dom implicants → is_Some (Load v i h').
Proof.
  intros Hempty h' u a b Hu v Hv. subst h'. unfold Load, mapLoad in *.
  destruct (runMutations_keeps i cs h) as (_ & _ & Hn & _).
  assert (H0 : neighboursPresent (deref h (mapping i))).
  { rewrite Hempty. intros ? ? ? H. by rewrite lookup_empty in H. }
  destruct (Hn H0 _ _ _ Hu) as [Ha Hb].
  apply elem_of_dom. destruct Hv as [Hv|Hv]; [by apply Ha|by apply Hb].
Qed.

Lemma neighbours_are_keys_witness :
  Load P1 i0 hOverwrite = Some (DeterminedVal nilLiteral) ∧
  is_Some (Load P1 i0 hOverwrite).
Proof.
  split; [by_computation|].
  apply (neighbours_are_keys i0 callsOverwrite h0 eq_refl E1
           (implicatesAt (deref hOverwrite (mapping i0)) E1)
           (implicantsAt (deref hOverwrite (mapping i0)) E1)).
  - by_computation.
  - left. by_computation.
Defined.

(** * Further properties: the export selector *)

(** X10: the set [chooseSitesToExport] returns is the one the graph alone
    determines: the exported keys of [i.mapping], and the private sites
    that are reached from an exported site along [Implicates] and from an
    exported site along [Implicants], through private undetermined sites
    only. *)
Theorem selected_sites_characterised order i h s :
  s ∈ chooseSitesToExport order i h ↔
    (Exported s = true ∧ is_Some (Load s i h)) ∨
    (Exported s = false ∧
     reachedFromExported (deref h (mapping i)) s ∧
     reachesAnExported (deref h (mapping i)) s).
Proof.
  rewrite chooseSitesToExport_characterised.
  unfold Load, mapLoad. by rewrite elem_of_dom.
Qed.

(** X11: the result of [chooseSitesToExport] does not depend on the order in
    which Go's [range] yields the keys of [i.mapping] and of the edge
    sets. *)
Theorem selected_sites_order_independent order1 order2 i h :
  chooseSitesToExport order1 i h = chooseSitesToExport order2 i h.
Proof.
  apply set_eq. intros s. by rewrite !chooseSitesToExport_characterised.
Qed.

(** X12: a selected site is a key of [i.mapping], and a selected private
    site is undetermined: a private site with a verdict is never
    exported by the selector. *)
Theorem selected_private_sites_are_undetermined order i h s :
  s ∈ chooseSitesToExport order i h →
  is_Some (Load s i h) ∧
  (Exported s = false → isUndetermined (Load s i h) = true).
Proof.
  intros Hs. unfold Load, mapLoad.
  destruct (chooseSitesToExport_exported_only order i h s Hs) as [[He Hin]|[Hp Hu]].
  - split; [by apply elem_of_dom|]. intros Hc. by rewrite He in Hc.
  - split; [|done]. by apply elem_of_dom, undetermined_dom.
Qed.

Lemma selected_private_sites_are_undetermined_witness :
  is_Some (Load P1 i0 hS3) ∧
  (Exported P1 = false → isUndetermined (Load P1 i0 hS3) = true).
Proof.
  apply (selected_private_sites_are_undetermined inOrder i0 hS3 P1).
  by_computation.
Defined.

(** * Further properties: Export *)

Lemma exportSite_exportedEntry i S exported (h : Heap) site val :
  exported ≠ upstreamMapping i →
  exportSite i S exported h (site, val) =
    match exportedEntry S (deref h (upstreamMapping i)) site val with
    | Some d => mapStore exported site d h
    | None => h
    end.
Proof.
  intros Hne. unfold exportSite, exportedEntry, mapLoad.
  destruct (decide (site ∈ S)) as [Hin|Hout].
  - rewrite bool_decide_eq_true_2 by done. simpl.
    destruct (deref h (upstreamMapping i) !! site) as [up|]; [|done].
    by destruct (inferredValDiff val up) as [[d|] [|]].
  - by rewrite bool_decide_eq_false_2 by done.
Qed.

(** The loop of [Export], entry by entry: the map under construction
    receives what [exportedEntry] yields. *)
Lemma export_loop_lookup i S exported es : ∀ (h : Heap),
  exported ≠ upstreamMapping i →
  NoDup es.*1 →
  ∀ s, deref (foldl (exportSite i S exported) h es) exported !! s =
    match (list_to_map es : siteMap) !! s
            ≫= exportedEntry S (deref h (upstreamMapping i)) s with
    | Some d => Some d
    | None => deref h exported !! s
    end.
Proof.
  induction es as [|[site val] es IH]; intros h Hne Hnd s.
  { simpl. by rewrite lookup_empty. }
  cbn [foldl]. rewrite fmap_cons in Hnd. apply NoDup_cons in Hnd as [Hfresh Hnd].
  rewrite (IH _ Hne Hnd s). clear IH.
  assert (Hup : deref (exportSite i S exported h (site, val)) (upstreamMapping i)
                = deref h (upstreamMapping i)).
  { unfold deref. by rewrite exportSite_frame. }
  rewrite Hup, exportSite_exportedEntry by done.
  change (list_to_map ((site, val) :: es) : siteMap)
    with (<[site := val]> (list_to_map es : siteMap)).
  destruct (decide (s = site)) as [->|Hs].
  - rewrite lookup_insert_eq.
    rewrite (not_elem_of_list_to_map_1 es site) by done. cbn [mbind option_bind].
    destruct (exportedEntry S (deref h (upstreamMapping i)) site val) as [d|].
    + by rewrite deref_mapStore, lookup_insert_eq.
    + done.
  - rewrite lookup_insert_ne by done.
    destruct (list_to_map es !! s ≫= _); [done|].
    destruct (exportedEntry S (deref h (upstreamMapping i)) site val) as [d|].
    + by rewrite deref_mapStore, lookup_insert_ne.
    + done.
Qed.

Lemma list_to_map_rangeList order (m : siteMap) :
  (list_to_map (rangeList order _ (map_to_list m)) : siteMap) = m ∧
  NoDup (rangeList order _ (map_to_list m)).*1.
Proof.
  pose proof (rangeList_perm order _ (map_to_list m)) as Hp.
  assert (Hnd : NoDup (rangeList order _ (map_to_list m)).*1).
  { rewrite Hp. apply NoDup_fst_map_to_list. }
  split; [|done].
  rewrite (list_to_map_proper _ _ Hnd Hp). apply list_to_map_to_list.
Qed.

(** The heap after the loop of [Export]. *)
Lemma export_loop_result order i S exported (h : Heap) :
  exported ≠ upstreamMapping i →
  h !! exported = Some ∅ →
  foldl (exportSite i S exported) h
        (rangeList order _ (map_to_list (deref h (mapping i))))
  = <[exported := exportedContent S (deref h (upstreamMapping i))
                                  (deref h (mapping i))]> h.
Proof.
  intros Hne Hex.
  assert (Hin : exported ∈ dom h) by (apply elem_of_dom; eauto).
  destruct (export_loop_frame i S exported
              (rangeList order _ (map_to_list (deref h (mapping i)))) h Hin)
    as [Hin2 Hframe].
  destruct (list_to_map_rangeList order (deref h (mapping i))) as [Hmap Hnd].
  pose proof (export_loop_lookup i S exported _ h Hne Hnd) as Hlook.
  rewrite Hmap in Hlook.
  set (h2 := foldl _ h _) in *.
  apply map_eq. intros l. destruct (decide (l = exported)) as [->|Hl].
  - rewrite lookup_insert_eq. apply elem_of_dom in Hin2 as [c Hc].
    rewrite Hc. f_equal. apply map_eq. intros s.
    specialize (Hlook s). unfold deref in Hlook at 1. rewrite Hc in Hlook.
    simpl in Hlook. rewrite Hlook. unfold exportedContent.
    rewrite map_lookup_imap.
    destruct (deref h (mapping i) !! s ≫= _); [done|].
    unfold deref. by rewrite Hex.
  - rewrite lookup_insert_ne by done. by apply Hframe.
Qed.

(** [Export] without its loops. *)
Lemma Export_unfold order i pass (h : Heap) :
  allocated i h →
  Export order i pass h =
    let m := deref h (mapping i) in
    let content := exportedContent (chooseSitesToExport order i h)
                     (deref h (upstreamMapping i)) m in
    if decide (size m = 0) then (pass, h)
    else
      let exported := fresh (dom h) in
      let h2 := <[exported := content]> h in
      if decide (0 < size content) then
        let '(f, h3) := newInferredMap h2 in
        (MkInferredMap (upstreamMapping f) exported :: pass, h3)
      else (pass, h2).
Proof.
  intros [Hup Hmp]. unfold Export. cbv zeta.
  case_decide as Hsz; [done|].
  unfold make. cbv zeta.
  set (exported := fresh (dom h)).
  assert (Hfresh : exported ∉ dom h) by apply is_fresh.
  assert (Hne : exported ≠ upstreamMapping i) by (intros E; by rewrite E in Hfresh).
  assert (Hne' : exported ≠ mapping i) by (intros E; by rewrite E in Hfresh).
  set (h1 := <[exported := ∅]> h).
  assert (Hm : deref h1 (mapping i) = deref h (mapping i)).
  { unfold deref, h1. by rewrite lookup_insert_ne. }
  assert (Hu : deref h1 (upstreamMapping i) = deref h (upstreamMapping i)).
  { unfold deref, h1. by rewrite lookup_insert_ne. }
  rewrite (chooseSitesToExport_content order i i h1 h Hm).
  rewrite (export_loop_result order i _ exported h1 Hne)
    by (unfold h1; by rewrite lookup_insert_eq).
  rewrite Hm, Hu. unfold h1. rewrite insert_insert_eq.
  set (content := exportedContent _ _ _).
  assert (deref (<[exported := content]> h) exported = content) as ->.
  { unfold deref. by rewrite lookup_insert_eq. }
  done.
Qed.

(** The fact [Export] emits, if any. *)
Lemma Export_fact_content order i pass (h : Heap) :
  allocated i h →
  let content := exportedContent (chooseSitesToExport order i h)
                   (deref h (upstreamMapping i)) (deref h (mapping i)) in
  let r := Export order i pass h in
  (content = ∅ ∧ r.1 = pass) ∨
  (content ≠ ∅ ∧
   ∃ fact, r.1 = fact :: pass ∧
     deref r.2 (mapping fact) = content ∧
     deref r.2 (upstreamMapping fact) = ∅).
Proof.
  intros Halloc. cbv zeta. rewrite (Export_unfold order i pass h Halloc). cbv zeta.
  set (content := exportedContent _ _ _).
  case_decide as Hsz.
  { left. split; [|done]. apply map_size_empty_inv in Hsz.
    unfold content, exportedContent. rewrite Hsz. apply map_imap_empty. }
  case_decide as Hemit.
  - right. split. { intros E. rewrite E, map_size_empty in Hemit. lia. }
    unfold newInferredMap, make. cbn [fst snd upstreamMapping mapping].
    set (exported := fresh (dom h)).
    set (h2 := <[exported := content]> h).
    set (up := fresh (dom h2)).
    assert (Hupf : up ∉ dom h2) by apply is_fresh.
    set (mp := fresh (dom (<[up := ∅]> h2))).
    assert (Hmpf : mp ∉ dom (<[up := ∅]> h2)) by apply is_fresh.
    rewrite dom_insert_L in Hmpf.
    assert (Hex : exported ∈ dom h2) by (unfold h2; rewrite dom_insert_L; set_solver).
    eexists. split; [done|]. cbn [upstreamMapping mapping]. unfold deref. split.
    + rewrite !lookup_insert_ne by set_solver. unfold h2.
      by rewrite lookup_insert_eq.
    + rewrite lookup_insert_ne by set_solver. by rewrite lookup_insert_eq.
  - left. split; [|done]. apply map_size_empty_inv. lia.
Qed.

Lemma lookup_exportedContent S upstream m s :
  exportedContent S upstream m !! s = m !! s ≫= exportedEntry S upstream s.
Proof. unfold exportedContent. by rewrite map_lookup_imap. Qed.

(** X13: what [Export] emits.  With [S] the selected set, the map it builds
    holds, for every selected key of [i.mapping] and for no other site:
    the live value when [i.upstreamMapping] has no entry for the site,
    and otherwise the difference [inferredValDiff] returns, provided it is
    flagged non-empty.  When that map is empty no fact is handed to the
    pass; otherwise exactly one fact is, whose [mapping] holds these
    entries and whose [upstreamMapping] is empty. *)
Theorem export_emits_the_selected_difference order i pass h :
  allocated i h →
  let content := exportedContent (chooseSitesToExport order i h)
                   (deref h (upstreamMapping i)) (deref h (mapping i)) in
  let r := Export order i pass h in
  (content = ∅ ∧ r.1 = pass) ∨
  (content ≠ ∅ ∧
   ∃ fact, r.1 = fact :: pass ∧
     deref r.2 (mapping fact) = content ∧
     deref r.2 (upstreamMapping fact) = ∅).
Proof. apply Export_fact_content. Qed.

Lemma export_emits_the_selected_difference_witness :
  exportedContent (chooseSitesToExport inOrder iS5 hS5)
    (deref hS5 (upstreamMapping iS5)) (deref hS5 (mapping iS5))
  = {[ E1 := UndeterminedVal {[E2 := {[t1]}]} ∅;
       E2 := UndeterminedVal ∅ {[E1 := {[t1]}]} ]} ∧
  ((exportedContent (chooseSitesToExport inOrder iS5 hS5)
      (deref hS5 (upstreamMapping iS5)) (deref hS5 (mapping iS5)) = ∅ ∧
    (Export inOrder iS5 [] hS5).1 = []) ∨
   (exportedContent (chooseSitesToExport inOrder iS5 hS5)
      (deref hS5 (upstreamMapping iS5)) (deref hS5 (mapping iS5)) ≠ ∅ ∧
    ∃ fact, (Export inOrder iS5 [] hS5).1 = fact :: [] ∧
      deref (Export inOrder iS5 [] hS5).2 (mapping fact)
        = exportedContent (chooseSitesToExport inOrder iS5 hS5)
            (deref hS5 (upstreamMapping iS5)) (deref hS5 (mapping iS5)) ∧
      deref (Export inOrder iS5 [] hS5).2 (upstreamMapping fact) = ∅)).
Proof.
  split; [by_computation|].
  apply (export_emits_the_selected_difference inOrder iS5 [] hS5).
  split; by_computation.
Defined.

(** X14: [Export] is incremental, site by site.  In a fact it emits: a site
    that is not selected, or whose entry in [i.mapping] equals its entry
    in [i.upstreamMapping], does not appear; a selected site that
    [i.upstreamMapping] does not know appears with its live value; and
    every site that appears is a selected key of [i.mapping]. *)
Theorem export_is_incremental order i pass h fact :
  allocated i h →
  (Export order i pass h).1 = fact :: pass →
  let emitted := deref (Export order i pass h).2 (mapping fact) in
  ∀ s,
    (s ∉ chooseSitesToExport order i h → emitted !! s = None) ∧
    (deref h (mapping i) !! s = deref h (upstreamMapping i) !! s →
       emitted !! s = None) ∧
    (s ∈ chooseSitesToExport order i h →
     deref h (upstreamMapping i) !! s = None →
       emitted !! s = deref h (mapping i) !! s) ∧
    (is_Some (emitted !! s) →
       s ∈ chooseSitesToExport order i h ∧ is_Some (Load s i h)).
Proof.
  intros Halloc Hemit. cbv zeta.
  destruct (Export_fact_content order i pass h Halloc)
    as [[_ Hnone]|(_ & fact' & Hfact & Hcontent & _)].
  { rewrite Hnone in Hemit. apply (f_equal length) in Hemit. simpl in Hemit. lia. }
  rewrite Hfact in Hemit. injection Hemit as ->.
  rewrite Hcontent. intros s. rewrite lookup_exportedContent.
  unfold Load, mapLoad, exportedEntry.
  destruct (deref h (mapping i) !! s) as [val|] eqn:Hs; simpl.
  - destruct (decide (s ∈ chooseSitesToExport order i h)) as [Hin|Hout].
    + split; [done|]. split; [|split].
      * intros <-. pose proof (inferredValDiff_same val) as Hd.
        by destruct (inferredValDiff val val) as [[d|] [|]].
      * by intros _ ->.
      * eauto.
    + split; [done|]. split; [done|]. split; [done|]. by intros [? ?].
  - split; [done|]. split; [done|]. split; [done|]. by intros [? ?].
Qed.

Lemma export_is_incremental_witness :
  deref (Export inOrder iS5 [] hS5).2 3%positive !! exportedSite "A" = None ∧
  deref (Export inOrder iS5 [] hS5).2 3%positive !! E1
    = deref hS5 (mapping iS5) !! E1.
Proof.
  assert (Halloc : allocated iS5 hS5) by (split; by_computation).
  assert (Hemit : (Export inOrder iS5 [] hS5).1 = [MkInferredMap 4 3])
    by by_computation.
  split.
  - apply (export_is_incremental inOrder iS5 [] hS5 (MkInferredMap 4 3)
             Halloc Hemit (exportedSite "A")).
    by_computation.
  - apply (export_is_incremental inOrder iS5 [] hS5 (MkInferredMap 4 3)
             Halloc Hemit E1); by_computation.
Defined.

(** X15: the facts [Export] emits and the heap it leaves do not depend on
    the order in which Go's [range] yields map entries. *)
Theorem export_order_independent order1 order2 i pass h :
  allocated i h →
  Export order1 i pass h = Export order2 i pass h.
Proof.
  intros Halloc. rewrite !(Export_unfold _ i pass h Halloc).
    assert (chooseSitesToExport order1 i h = chooseSitesToExport order2 i h) as ->; [|done].
  apply set_eq. intros s. by rewrite !chooseSitesToExport_characterised.
Qed.

Lemma export_order_independent_witness :
  Export inOrder iS5 [] hS5 = Export reversedOrder iS5 [] hS5.
Proof.
  apply (export_order_independent inOrder reversedOrder iS5 [] hS5).
  split; by_computation.
Defined.

(** * Further properties: Range *)

Lemma rangeLoop_prefix {A} (f : A → primitiveSite → InferredVal → A * bool) es :
  ∀ a, ∃ visited rest,
    es = visited ++ rest ∧
    rangeLoop f a es = foldl (visit f) a visited ∧
    (rest ≠ [] → ∃ before last, visited = before ++ [last] ∧
       goesOn f (foldl (visit f) a before) last = false) ∧
    (∀ before entry after, visited = before ++ entry :: after → after ≠ [] →
       goesOn f (foldl (visit f) a before) entry = true).
Proof.
  induction es as [|[site value] es IH]; intros a.
  { exists [], []. split; [done|]. split; [done|]. split; [done|].
    intros [|??] ?? Hc; discriminate Hc. }
  cbn [rangeLoop]. destruct (f a site value) as [a' goOn] eqn:Hf.
  destruct goOn.
  - destruct (IH a') as (visited & rest & -> & Hloop & Hstop & Hgo).
    exists ((site, value) :: visited), rest.
    assert (Hstep : ∀ l, foldl (visit f) a ((site, value) :: l) = foldl (visit f) a' l).
    { intros l. cbn [foldl]. unfold visit at 2. simpl. by rewrite Hf. }
    split; [done|]. split; [by rewrite Hstep|]. split.
    + intros Hrest. destruct (Hstop Hrest) as (before & last & -> & Hlast).
      exists ((site, value) :: before), last. split; [done|]. by rewrite Hstep.
    + intros [|e before] entry after Heq Hafter.
      * injection Heq as <- _. unfold goesOn. simpl. by rewrite Hf.
      * injection Heq as <- Heq. rewrite Hstep. by apply (Hgo before entry after).
  - exists [(site, value)], es. split; [done|]. split.
    { cbn [foldl]. unfold visit. simpl. by rewrite Hf. }
    split.
    + intros _. exists [], (site, value). split; [done|].
      unfold goesOn. simpl. by rewrite Hf.
    + intros [|e [|??]] entry after Heq Hafter.
      * injection Heq as _ <-. done.
      * discriminate Heq.
      * discriminate Heq.
Qed.

(** X16: [Range] calls the visitor on a sequence of distinct entries of
    [i.mapping], each call in the state the previous one left; every call
    but the last answered true; when entries are left unvisited the last
    call answered false; so a visitor that never answers false is called
    on every entry of the map exactly once. *)
Theorem range_stops_at_first_false {A} order
    (f : A → primitiveSite → InferredVal → A * bool) i h a :
  ∃ visited rest,
    visited ++ rest ≡ₚ map_to_list (deref h (mapping i)) ∧
    NoDup (visited ++ rest).*1 ∧
    Range order f i h a = foldl (visit f) a visited ∧
    (rest ≠ [] → ∃ before last, visited = before ++ [last] ∧
       goesOn f (foldl (visit f) a before) last = false) ∧
    (∀ before entry after, visited = before ++ entry :: after → after ≠ [] →
       goesOn f (foldl (visit f) a before) entry = true) ∧
    ((∀ a' entry, goesOn f a' entry = true) → rest = []).
Proof.
  unfold Range.
  destruct (rangeLoop_prefix f
              (rangeList order _ (map_to_list (deref h (mapping i)))) a)
    as (visited & rest & Heq & Hloop & Hstop & Hgo).
  exists visited, rest.
  split; [rewrite <- Heq; apply rangeList_perm|].
  split. { rewrite <- Heq, (rangeList_perm order). apply NoDup_fst_map_to_list. }
  split; [done|]. split; [done|]. split; [done|].
  intros Hall. destruct rest as [|e rest]; [done|].
  destruct Hstop as (before & last & _ & Hlast); [done|].
  by rewrite Hall in Hlast.
Qed.

(** * Further properties: the serializer *)

(** X17: [GobDecode], on any input and whether or not the decoder reports
    an error, replaces both fields of the receiver by map objects that
    did not exist before and are distinct from each other;
    [upstreamMapping] is left empty and [mapping] holds what the decoder
    delivered (on an error, what it had delivered so far); the error of
    the decoder is returned as it is; and no map object that existed
    before the call is changed, the two the receiver held in
    particular. *)
Theorem gob_decode_replaces_both_maps
    (gobDecode : list Byte.byte → siteMap * option string) input i h :
  let r := GobDecode gobDecode input i h in
  let i' := r.1.1 in
  let h' := r.1.2 in
  (mapping i' ∉ dom h) ∧ (upstreamMapping i' ∉ dom h) ∧
  mapping i' ≠ upstreamMapping i' ∧
  deref h' (mapping i') = (gobDecode input).1 ∧
  deref h' (upstreamMapping i') = ∅ ∧
  r.2 = (gobDecode input).2 ∧
  (∀ l, l ∈ dom h → h' !! l = h !! l).
Proof.
  unfold GobDecode, make. cbv zeta.
  destruct (gobDecode input) as [entries err]. cbn [fst snd mapping upstreamMapping].
  set (mp := fresh (dom h)).
  set (up := fresh (dom (<[mp := ∅]> h))).
  assert (Hmp : mp ∉ dom h) by apply is_fresh.
  assert (Hup : up ∉ dom (<[mp := ∅]> h)) by apply is_fresh.
  rewrite dom_insert_L in Hup.
  assert (up ≠ mp) by set_solver.
  split; [done|]. split; [set_solver|]. split; [done|].
  unfold deref. split; [|split; [|split]].
  - rewrite lookup_insert_eq, lookup_insert_ne, lookup_insert_eq by done.
    simpl. by rewrite (right_id_L ∅ (∪)).
  - by rewrite lookup_insert_ne, lookup_insert_eq by done.
  - done.
  - intros l Hl. by rewrite !lookup_insert_ne by set_solver.
Qed.

(** * Further properties: the annotation facade *)

(** X18: once [StoreDetermined] has stored a verdict for the shallow and
    for the deep site of a key, the query on the key answers the two
    verdicts with both set bits and [ok = true], whatever the map held
    before. *)
Theorem check_after_both_verdicts keyExported key shallow deep i h :
  checkAnnotationKey keyExported key i
    (StoreDetermined (newPrimitiveSite keyExported key true) deep i
       (StoreDetermined (newPrimitiveSite keyExported key false) shallow i h))
  = (MkAnnotationVal (Val shallow) (Val deep) true true, true).
Proof.
  unfold checkAnnotationKey, StoreDetermined, mapLoad. cbv zeta.
  rewrite !deref_mapStore.
  rewrite lookup_insert_eq.
  rewrite lookup_insert_ne, lookup_insert_eq; [done|].
  unfold newPrimitiveSite. intros [=].
Qed.

(** X19: after a returning [StoreImplication] with the shallow or the deep
    site of a key as one of its endpoints, the query on the key answers
    [EmptyVal] with [ok = false]: the site is undetermined. *)
Theorem check_after_implication keyExported key isDeep from to assertion i h h' :
  StoreImplication from to assertion i h = Returned h' →
  from = newPrimitiveSite keyExported key isDeep ∨
  to = newPrimitiveSite keyExported key isDeep →
  checkAnnotationKey keyExported key i h' = (EmptyVal, false).
Proof.
  intros Hret Hsite.
  destruct (StoreImplication_edges _ _ _ _ _ _ Hret) as (_ & _ & Hl & _).
  assert (Hund : isUndetermined
            (mapLoad h' (mapping i) (newPrimitiveSite keyExported key isDeep)) = true).
  { unfold mapLoad, deref. rewrite Hl. simpl.
    unfold withImplication. cbv zeta.
    destruct Hsite as [<-|<-].
    - destruct (decide (to = from)) as [->|Hne].
      + by rewrite lookup_insert_eq.
      + rewrite lookup_insert_ne by done. by rewrite lookup_insert_eq.
    - by rewrite lookup_insert_eq. }
  unfold checkAnnotationKey. cbv zeta.
  destruct isDeep.
  - destruct (mapLoad h' (mapping i) (newPrimitiveSite keyExported key true))
      as [[?|??]|]; try done.
    by destruct (mapLoad h' (mapping i) (newPrimitiveSite keyExported key false))
      as [[?|??]|].
  - destruct (mapLoad h' (mapping i) (newPrimitiveSite keyExported key false))
      as [[?|??]|]; try done.
    by destruct (mapLoad h' (mapping i) (newPrimitiveSite keyExported key true))
      as [[?|??]|].
Qed.

Lemma check_after_implication_witness :
  checkAnnotationKey (λ _, true) (GlobalVarAnnotationKey "A") i0
    (heapOf (StoreImplication shallowA E1 t1 i0 h0)) = (EmptyVal, false).
Proof.
  apply (check_after_implication (λ _, true) (GlobalVarAnnotationKey "A") false
           shallowA E1 t1 i0 h0).
  - by_computation.
  - left. reflexivity.
Defined.

Lemma runMutations_allocated i cs : ∀ (h : Heap),
  mapping i ∈ dom h → mapping i ∈ dom (heapOf (runMutations i cs h)).
Proof.
  induction cs as [|c cs IH]; intros h Hin; [done|]. simpl.
  assert (Hstep : mapping i ∈ dom (heapOf (applyMutation i h c))).
  { destruct c as [site value|from to assertion]; simpl.
    - unfold StoreDetermined, mapStore. rewrite dom_insert_L. set_solver.
    - destruct (StoreImplication_stage from to assertion i h) as [Hstage _].
      destruct (implicationStage_keeps _ _ _ _ _ Hstage) as (_ & _ & _ & Hdom).
      apply deref_nonempty_allocated. intros Hempty.
      rewrite Hempty, dom_empty_L in Hdom. set_solver. }
  destruct (applyMutation i h c) as [h1|h1]; simpl in *; [by apply IH|done].
Qed.

Lemma exportedContent_no_upstream S (m : siteMap) :
  exportedContent S ∅ m = filter (λ entry, entry.1 ∈ S) m.
Proof.
  apply map_eq. intros s. rewrite lookup_exportedContent, map_lookup_filter.
  destruct (m !! s) as [val|]; simpl; [|done].
  unfold exportedEntry. rewrite lookup_empty.
  destruct (decide (s ∈ S)) as [Hin|Hout].
  - by rewrite option_guard_True.
  - by rewrite option_guard_False.
Qed.

(** * Further properties: a map from its creation to its export *)

(** X20: a map made by [newInferredMap] consists of two map objects that
    did not exist before and are distinct; whatever sequence of
    [StoreDetermined] and [StoreImplication] calls is then run on it
    (returning or ending in a panic), its [upstreamMapping] stays empty and
    no older map object is changed; and a fact [Export] then emits holds
    exactly the entries of [mapping] at the selected sites, with their
    live values. *)
Theorem new_map_exports_selected_entries order cs pass h :
  let i := (newInferredMap h).1 in
  let h1 := heapOf (runMutations i cs (newInferredMap h).2) in
  (mapping i ∉ dom h) ∧ (upstreamMapping i ∉ dom h) ∧
  mapping i ≠ upstreamMapping i ∧
  Len i (newInferredMap h).2 = 0 ∧
  deref h1 (upstreamMapping i) = ∅ ∧
  (∀ l, l ∈ dom h → h1 !! l = h !! l) ∧
  (∀ fact, (Export order i pass h1).1 = fact :: pass →
     deref (Export order i pass h1).2 (mapping fact)
       = filter (λ entry, entry.1 ∈ chooseSitesToExport order i h1)
                (deref h1 (mapping i))).
Proof.
  unfold newInferredMap, make. cbv zeta. cbn [fst snd].
  set (up := fresh (dom h)).
  set (mp := fresh (dom (<[up := ∅]> h))).
  assert (Hup : up ∉ dom h) by apply is_fresh.
  assert (Hmp : mp ∉ dom (<[up := ∅]> h)) by apply is_fresh.
  rewrite dom_insert_L in Hmp.
  assert (Hne : mp ≠ up) by set_solver.
  assert (Hi : ∃ i, i = MkInferredMap up mp) by eauto.
  destruct Hi as [i Hi]. rewrite <- Hi.
  assert (Him : mapping i = mp) by by rewrite Hi.
  assert (Hiu : upstreamMapping i = up) by by rewrite Hi.
  clear Hi.
  set (h0 := <[mp := ∅]> (<[up := ∅]> h)).
  destruct (runMutations_keeps i cs h0) as (_ & _ & _ & Hframe).
  pose proof (runMutations_allocated i cs h0) as Hal.
  set (h1 := heapOf (runMutations i cs h0)) in *.
  rewrite ?Him, ?Hiu in *.
  assert (Hupstream : h1 !! up = Some ∅).
  { etrans; [apply Hframe; done|]. unfold h0.
    by rewrite lookup_insert_ne, lookup_insert_eq by done. }
  split; [set_solver|]. split; [done|]. split; [done|]. split.
  { unfold Len, deref, h0. rewrite Him. by rewrite lookup_insert_eq. }
  split. { unfold deref. by rewrite Hupstream. }
  split.
  { intros l Hl. etrans; [apply Hframe; set_solver|]. unfold h0.
    by rewrite !lookup_insert_ne by set_solver. }
  intros fact Hemit.
  assert (Halloc : allocated i h1).
  { split; rewrite ?Him, ?Hiu.
    - apply elem_of_dom. eauto.
    - apply Hal. unfold h0. rewrite dom_insert_L. set_solver. }
  destruct (Export_fact_content order i pass h1 Halloc)
    as [[_ Hnone]|(_ & fact' & Hfact & Hcontent & _)].
  { rewrite Hnone in Hemit. apply (f_equal length) in Hemit. simpl in Hemit. lia. }
  rewrite Hfact in Hemit. injection Hemit as ->.
  rewrite Hcontent, Hiu, Him.
  unfold deref at 1. rewrite Hupstream. simpl.
  apply exportedContent_no_upstream.
Qed.

(** * Further properties: the annotation facade along the mutations *)

(** X21: once a query on a key answers [ok = true], it answers [ok = true]
    after any further sequence of [StoreDetermined] and [StoreImplication]
    calls: the two sites of the key stay determined (a later
    [StoreDetermined] may change the verdict, a [StoreImplication] on one
    of them panics and leaves it as it is). *)
Theorem check_ok_is_stable keyExported key i cs h :
  (checkAnnotationKey keyExported key i h).2 = true →
  (checkAnnotationKey keyExported key i (heapOf (runMutations i cs h))).2 = true.
Proof.
  intros Hok.
  destruct (checkAnnotationKey_sound keyExported key i h) as ([Hdet _] & _).
  destruct (Hdet Hok) as [Hs Hd].
  destruct (runMutations_keeps i cs h) as (_ & Hkeep & _ & _).
  destruct (checkAnnotationKey_sound keyExported key i
              (heapOf (runMutations i cs h))) as ([_ Hback] & _).
  apply Hback. unfold Load, mapLoad in *. split; by apply Hkeep.
Qed.

Lemma check_ok_is_stable_witness :
  panicked (runMutations i0 [CallStoreDetermined E1 nilLiteral;
                             CallStoreImplication shallowA deepA t1] hS1) = true ∧
  (checkAnnotationKey (λ _, true) (GlobalVarAnnotationKey "A") i0
     (heapOf (runMutations i0 [CallStoreDetermined E1 nilLiteral;
                               CallStoreImplication shallowA deepA t1] hS1))).2 = true.
Proof.
  split; [by_computation|].
  apply (check_ok_is_stable (λ _, true) (GlobalVarAnnotationKey "A") i0
           [CallStoreDetermined E1 nilLiteral;
            CallStoreImplication shallowA deepA t1] hS1).
  by_computation.
Defined.
